(** * Inotify: watch registry, handler table, event-stream parser and poll cycle

    A shallow embedding of the two Inotify wrappers of the repository:

    - [include/Inotify.h]: the class with a watch registry ([_watches]), a
      handler table ([_sigs]) and an internal event queue ([_event_queue]);
      it is embedded at top level;
    - [src/Inotify.cpp]: the class that broadcasts every parsed event on one
      signal ([data_sig]); it is embedded in [Module Broadcast].

    Integers are [Z]; the 32-bit conversions the code performs are written
    out.  A [std::list] is a Rocq [list], a loop over it is a structural
    recursion over the part of the list the iterator has not visited yet.
    Operations that the C++ standard leaves undefined (advancing an iterator
    to an erased node, reading past the bytes handed to the parser) yield
    [Undefined].

    The kernel and the classes that are not part of the sources
    ([WriteEventSink], [Signal], the [AbortIf] macros) are inputs of the
    model: the value returned by [inotify_add_watch] and [inotify_rm_watch]
    is an argument of the operation that calls it, and one
    [WriteEventSink::read] is described by a [sink_read]. *)

From Stdlib Require Import ZArith List Bool Lia Permutation.
From Stdlib.Strings Require Import Byte.
From Stdlib.Strings Require String.
From Equations Require Import Equations.
Import ListNotations.
Local Open Scope Z_scope.

Definition string : Set := String.string.

(** ** Outcomes *)

Inductive outcome (A : Type) : Type :=
| Ok (a : A)
| Undefined.
Arguments Ok {A} a.
Arguments Undefined {A}.

Definition bind {A B : Type} (c : outcome A) (k : A -> outcome B) : outcome B :=
  match c with
  | Ok a => k a
  | Undefined => Undefined
  end.

Notation "x <- c ;; k" := (bind c (fun x => k))
  (at level 61, c at next level, right associativity).
Notation "' p <- c ;; k" := (bind c (fun x => let 'p := x in k))
  (at level 61, p pattern, c at next level, right associativity).

(** ** Machine integers and the wire format *)

Definition to_uint32 (z : Z) : Z := z mod 2 ^ 32.

Definition to_int32 (z : Z) : Z := (z + 2 ^ 31) mod 2 ^ 32 - 2 ^ 31.

Definition byte_val (b : byte) : Z := Z.of_N (Byte.to_N b).

(** The 32-bit word stored at offset [off] of [buf] (x86 and ARM Linux are
    little-endian); [None] when fewer than four bytes are there. *)
Definition uint32_at (off : nat) (buf : list byte) : option Z :=
  match skipn off buf with
  | b0 :: b1 :: b2 :: b3 :: _ =>
      Some (Z.lor (byte_val b0)
             (Z.lor (Z.shiftl (byte_val b1) 8)
               (Z.lor (Z.shiftl (byte_val b2) 16) (Z.shiftl (byte_val b3) 24))))
  | _ => None
  end.

Definition int32_at (off : nat) (buf : list byte) : option Z :=
  option_map to_int32 (uint32_at off buf).

(** [sizeof (struct inotify_event)]: [int wd; uint32_t mask, cookie, len;]
    followed by the flexible array [name]. *)
Definition sizeof_inotify_event : nat := 16.

(** The header fields of the [struct inotify_event] a pointer into the buffer
    is cast to. *)
Module inotify_event.
Record t := make { wd : Z; mask : Z; cookie : Z; len : Z }.
End inotify_event.

Definition read_header (p : list byte) : option inotify_event.t :=
  match int32_at 0 p, uint32_at 4 p, uint32_at 8 p, uint32_at 12 p with
  | Some w, Some m, Some c, Some l => Some (inotify_event.make w m c l)
  | _, _, _, _ => None
  end.

(** [std::string] built from a [const char] pointer: the bytes up to the first NUL; [None] when
    the bytes end before a NUL is met. *)
Fixpoint c_str (p : list byte) : option (list byte) :=
  match p with
  | [] => None
  | b :: rest =>
      if Byte.eqb b x00 then Some []
      else option_map (cons b) (c_str rest)
  end.

(** ** Data model of include/Inotify.h *)

Module Watch.
Record t := make { mask : Z; path : string; wd : Z }.
End Watch.

Definition watch_l := list Watch.t.

(** A handler handed to [attach]: a null pointer or a function.  [Signal] is
    not part of the sources; its [attach] is taken to refuse exactly the null
    handler, and a [signal] is the handler a [Signal] object is bound to. *)
Inductive callable : Type :=
| null_func
| func (id : nat).

Definition signal := nat.

Definition Signal_attach (f : callable) : option signal :=
  match f with
  | null_func => None
  | func id => Some id
  end.

Module sig_info.
Record t := make { mask : Z; sig : signal; wd : Z }.
End sig_info.

Definition signal_l := list sig_info.t.

Module InotifyEvent.
Record t := make { wd : Z; mask : Z; cookie : Z; len : Z; name : list byte }.
End InotifyEvent.

Record Inotify := mkInotify {
  _event_queue : list InotifyEvent.t;
  _sigs : signal_l;
  _watches : watch_l
}.

Definition set_event_queue (q : list InotifyEvent.t) (st : Inotify) : Inotify :=
  mkInotify q (_sigs st) (_watches st).

Definition set_sigs (s : signal_l) (st : Inotify) : Inotify :=
  mkInotify (_event_queue st) s (_watches st).

Definition set_watches (w : watch_l) (st : Inotify) : Inotify :=
  mkInotify (_event_queue st) (_sigs st) w.

(** The object after construction. *)
Definition Inotify_init : Inotify := mkInotify [] [] [].

(** ** Watch registry *)

(** [exists(wd)] ([exists] is a keyword of Rocq). *)
Fixpoint exists_loop (wd : Z) (ws : watch_l) : bool :=
  match ws with
  | [] => false
  | w :: rest => if Watch.wd w =? wd then true else exists_loop wd rest
  end.

Definition exists_ (wd : Z) (st : Inotify) : bool :=
  exists_loop wd (_watches st).

Fixpoint update_watch_loop (wd mask : Z) (ws : watch_l) : Z * watch_l :=
  match ws with
  | [] => (-1, [])
  | w :: rest =>
      if Watch.wd w =? wd
      then (Watch.wd w, Watch.make mask (Watch.path w) (Watch.wd w) :: rest)
      else let (r, rest') := update_watch_loop wd mask rest in (r, w :: rest')
  end.

Definition update_watch (wd mask : Z) (st : Inotify) : Z * Inotify :=
  let (r, ws) := update_watch_loop wd mask (_watches st) in
  (r, set_watches ws st).

(** [add_watch(path, mask)]; [kernel_wd] is what [inotify_add_watch] returns.
    The constructor [Watch(int _mask, ...)] takes the mask through an [int]. *)
Definition add_watch (kernel_wd : Z) (path : string) (mask : Z) (st : Inotify)
  : Z * Inotify :=
  let wd := kernel_wd in
  if exists_ wd st then update_watch wd mask st
  else if negb (wd =? -1)
  then (wd, set_watches
              (_watches st ++ [Watch.make (to_uint32 (to_int32 mask)) path wd]) st)
  else (wd, st).

(** ** Handler table *)

Fixpoint sig_exists_loop (wd mask : Z) (sigs : signal_l) : bool :=
  match sigs with
  | [] => false
  | s :: rest =>
      if (sig_info.wd s =? wd) && (sig_info.mask s =? mask) then true
      else sig_exists_loop wd mask rest
  end.

Definition sig_exists (wd mask : Z) (st : Inotify) : bool :=
  sig_exists_loop wd mask (_sigs st).

(** [detach(wd, mask)]: the loop returns right after the [erase]. *)
Fixpoint detach_loop (wd mask : Z) (sigs : signal_l) : bool * signal_l :=
  match sigs with
  | [] => (false, [])
  | s :: rest =>
      if (sig_info.wd s =? wd) && (sig_info.mask s =? mask) then (true, rest)
      else let (r, rest') := detach_loop wd mask rest in (r, s :: rest')
  end.

Definition detach (wd mask : Z) (st : Inotify) : bool * Inotify :=
  let (r, sigs) := detach_loop wd mask (_sigs st) in
  (r, set_sigs sigs st).

(** [++iter] on an iterator whose node [erase] has removed from the list:
    [std::list::erase] invalidates the iterators to the erased element, and
    an invalid iterator cannot be advanced. *)
Definition increment_erased : outcome unit := Undefined.

(** [detach(wd)].  [visited] are the bindings the iterator has passed,
    [sigs] those from the iterator on.  At a binding of [wd] the body runs
    [_sigs.erase(iter)] and sets [success]; the iterator [erase] returns is
    dropped and the loop is not left, so the [++iter] of the loop header
    applies to the erased node. *)
Fixpoint detach_wd_loop (wd : Z) (visited sigs : signal_l) (success : bool)
  : outcome (bool * signal_l) :=
  match sigs with
  | [] => Ok (success, visited)
  | s :: rest =>
      if sig_info.wd s =? wd
      then _ <- increment_erased ;; detach_wd_loop wd visited rest true
      else detach_wd_loop wd (visited ++ [s]) rest success
  end.

Definition detach_wd (wd : Z) (st : Inotify) : outcome (bool * Inotify) :=
  '(r, sigs) <- detach_wd_loop wd [] (_sigs st) false ;;
  Ok (r, set_sigs sigs st).

(** [attach(wd, mask, func, ...)]: the six overloads differ in the kind of
    handler only. *)
Definition attach (wd mask : Z) (f : callable) (st : Inotify) : bool * Inotify :=
  if negb (exists_ wd st) then (false, st)
  else
    let st1 := if sig_exists wd mask st then snd (detach wd mask st) else st in
    match Signal_attach f with
    | None => (false, st1)
    | Some sg =>
        (true, set_sigs (_sigs st1 ++ [sig_info.make mask sg wd]) st1)
    end.

(** [rm_watch(wd)]; [kernel_rm] is what [inotify_rm_watch] returns when the
    loop reaches a watch to remove.  The loop is left right after the
    [erase]. *)
Fixpoint rm_watch_loop (kernel_rm wd : Z) (ws : watch_l) : bool * watch_l :=
  match ws with
  | [] => (false, [])
  | w :: rest =>
      if Watch.wd w =? wd then (kernel_rm =? 0, rest)
      else let (r, rest') := rm_watch_loop kernel_rm wd rest in (r, w :: rest')
  end.

Definition rm_watch (kernel_rm wd : Z) (st : Inotify) : outcome (bool * Inotify) :=
  let (success, ws) := rm_watch_loop kernel_rm wd (_watches st) in
  '(_, st') <- detach_wd wd (set_watches ws st) ;;
  Ok (success, st').

(** [rm_watch(path)]: the loop also records the descriptor of the watch it
    erases, [-1] when there is none. *)
Fixpoint rm_watch_path_loop (kernel_rm : Z) (path : string) (ws : watch_l)
  : bool * Z * watch_l :=
  match ws with
  | [] => (false, -1, [])
  | w :: rest =>
      if String.eqb (Watch.path w) path then (kernel_rm =? 0, Watch.wd w, rest)
      else
        let '(r, wd, rest') := rm_watch_path_loop kernel_rm path rest in
        (r, wd, w :: rest')
  end.

(** The function is declared [int] and returns the [bool] [success]. *)
Definition rm_watch_path (kernel_rm : Z) (path : string) (st : Inotify)
  : outcome (Z * Inotify) :=
  let '(success, wd, ws) := rm_watch_path_loop kernel_rm path (_watches st) in
  '(_, st') <- detach_wd wd (set_watches ws st) ;;
  Ok (Z.b2z success, st').

(** ** Event stream parser *)

(** [InotifyEvent(const struct inotify_event&)] applied to the record at [p]:
    the four header fields are copied and [name] is read as a C string that
    starts right after the header, whatever [len] says.  The bytes handed to
    the parser are all the model knows of the buffer: a read that runs past
    them is undefined. *)
Definition InotifyEvent_of (p : list byte) : outcome InotifyEvent.t :=
  match read_header p, c_str (skipn sizeof_inotify_event p) with
  | Some h, Some nm =>
      Ok (InotifyEvent.make (inotify_event.wd h) (inotify_event.mask h)
            (inotify_event.cookie h) (inotify_event.len h) nm)
  | _, _ => Undefined
  end.

(** The loop of [update_queue(data, size)]; [p] holds the bytes from the
    cursor to [data + size], so [p < data + size] reads [p <> []] and
    [data + size <= p + sizeof (struct inotify_event)] reads
    [length p <= 16]. *)
Equations? update_queue_loop (p : list byte) (queue : list InotifyEvent.t)
  : outcome (bool * list InotifyEvent.t) by wf (length p) lt :=
update_queue_loop [] queue := Ok (true, queue);
update_queue_loop (b :: p') queue
  with Nat.leb (length (b :: p')) sizeof_inotify_event := {
  | true := Ok (false, queue);
  | false with InotifyEvent_of (b :: p') := {
    | Undefined := Undefined;
    | Ok event :=
        update_queue_loop
          (skipn (sizeof_inotify_event + Z.to_nat (InotifyEvent.len event)) (b :: p'))
          (queue ++ [event]) } }.
Proof.
  apply Nat.lt_succ_r.
  change (length (skipn (15 + Z.to_nat (InotifyEvent.len event)) p') <= length p')%nat.
  rewrite length_skipn. lia.
Qed.

Definition update_queue (data : list byte) (st : Inotify) : outcome (bool * Inotify) :=
  '(r, q) <- update_queue_loop data (_event_queue st) ;;
  Ok (r, set_event_queue q st).

(** ** Poll cycle *)

(** [WriteEventSink::err_code]: the two codes [pollFd] accepts, and any
    other one. *)
Inductive err_code : Type :=
| SUCCESS
| NO_DATA
| OTHER (n : nat).

(** One [_event_sink.read()]: the bytes it hands to the attached reader
    [update_queue], if any, and the code it returns. *)
Record sink_read := mk_sink_read {
  delivered : option (list byte);
  code : err_code
}.

Definition no_data : sink_read := mk_sink_read None NO_DATA.

Definition pollFd (r : sink_read) (st : Inotify) : outcome (bool * Inotify) :=
  st1 <- match delivered r with
         | None => Ok st
         | Some data => '(_, st') <- update_queue data st ;; Ok st'
         end ;;
  match code r with
  | SUCCESS | NO_DATA => Ok (true, st1)
  | OTHER _ => Ok (false, st1)
  end.

(** The inner loop of [poll(wd)]: the bindings whose signal is raised for an
    event of mask [emask], in the order of the calls to [v_raise].  A handler
    is taken not to call back into the object. *)
Fixpoint raise_loop (wd emask : Z) (sigs : signal_l) : list sig_info.t :=
  match sigs with
  | [] => []
  | s :: rest =>
      if (sig_info.wd s =? wd) && negb (Z.land (sig_info.mask s) emask =? 0)
      then s :: raise_loop wd emask rest
      else raise_loop wd emask rest
  end.

(** What one pass of the outer loop body does to an event of [wd]: the event
    and the bindings raised for it. *)
Definition dispatch : Type := InotifyEvent.t * list sig_info.t.

(** The outer loop of [poll(wd)]: the dispatches in the order they happen and
    the queue that is left. *)
Fixpoint poll_wd_loop (wd : Z) (sigs : signal_l) (queue : list InotifyEvent.t)
  : list dispatch * list InotifyEvent.t :=
  match queue with
  | [] => ([], [])
  | e :: rest =>
      if InotifyEvent.wd e =? wd
      then
        let d := (e, raise_loop wd (InotifyEvent.mask e) sigs) in
        let (tr, q) := poll_wd_loop wd sigs rest in (d :: tr, q)
      else
        let (tr, q) := poll_wd_loop wd sigs rest in (tr, e :: q)
  end.

Definition poll_wd (r : sink_read) (wd : Z) (st : Inotify)
  : outcome (bool * Inotify * list dispatch) :=
  '(ok, st1) <- pollFd r st ;;
  if negb ok then Ok (false, st1, [])
  else
    let (tr, q) := poll_wd_loop wd (_sigs st1) (_event_queue st1) in
    Ok (true, set_event_queue q st1, tr).

(** [poll()]: [success = success && poll(iter->wd)] calls [poll(wd)] only
    while [success] holds.  [reads] describes the reads of the sink in the
    order they happen; past its end the sink has nothing to read. *)
Fixpoint poll_loop (reads : list sink_read) (ws : watch_l) (success : bool)
  (st : Inotify) : outcome (bool * Inotify * list dispatch) :=
  match ws with
  | [] => Ok (success, st, [])
  | w :: rest =>
      if success
      then
        '(ok, st1, tr1) <- poll_wd (hd no_data reads) (Watch.wd w) st ;;
        '(res, st2, tr2) <- poll_loop (tl reads) rest ok st1 ;;
        Ok (res, st2, tr1 ++ tr2)
      else poll_loop reads rest false st
  end.

Definition poll (reads : list sink_read) (st : Inotify)
  : outcome (bool * Inotify * list dispatch) :=
  poll_loop reads (_watches st) true st.

(** [poll(_queue)]: the result carries the caller's list. *)
Definition poll_queue (r : sink_read) (_queue : list InotifyEvent.t) (st : Inotify)
  : outcome (bool * Inotify * list InotifyEvent.t) :=
  '(ok, st1) <- pollFd r st ;;
  if negb ok then Ok (false, st1, _queue)
  else
    match _event_queue st1 with
    | [] => Ok (true, st1, _queue)
    | _ :: _ => Ok (true, set_event_queue [] st1, _event_queue st1)
    end.

(** ** Histories of calls *)

(** A call of the public interface, with the answers of the kernel and of
    the sink that it meets. *)
Inductive call : Type :=
| call_add_watch (kernel_wd : Z) (path : string) (mask : Z)
| call_rm_watch (kernel_rm wd : Z)
| call_rm_watch_path (kernel_rm : Z) (path : string)
| call_attach (wd mask : Z) (f : callable)
| call_detach (wd mask : Z)
| call_detach_wd (wd : Z)
| call_poll (reads : list sink_read)
| call_poll_wd (r : sink_read) (wd : Z)
| call_poll_queue (r : sink_read) (_queue : list InotifyEvent.t).

Definition run (c : call) (st : Inotify) : outcome Inotify :=
  match c with
  | call_add_watch k p m => Ok (snd (add_watch k p m st))
  | call_rm_watch k wd => '(_, st') <- rm_watch k wd st ;; Ok st'
  | call_rm_watch_path k p => '(_, st') <- rm_watch_path k p st ;; Ok st'
  | call_attach wd m f => Ok (snd (attach wd m f st))
  | call_detach wd m => Ok (snd (detach wd m st))
  | call_detach_wd wd => '(_, st') <- detach_wd wd st ;; Ok st'
  | call_poll reads => '(_, st', _) <- poll reads st ;; Ok st'
  | call_poll_wd r wd => '(_, st', _) <- poll_wd r wd st ;; Ok st'
  | call_poll_queue r q => '(_, st', _) <- poll_queue r q st ;; Ok st'
  end.

(** The objects a history of calls with defined results leads to. *)
Inductive reachable : Inotify -> Prop :=
| reachable_init : reachable Inotify_init
| reachable_run (c : call) (st st' : Inotify) :
    reachable st -> run c st = Ok st' -> reachable st'.

(** ** The broadcasting wrapper of src/Inotify.cpp *)

Module Broadcast.

Record Event := mkEvent { wd : Z; mask : Z; cookie : Z; name : list byte }.

(** The event the loop body builds from the record at offset [off] of
    [_raw], with the length of its name: [std::string(evt_ptr->name,
    evt_ptr->len)] copies [len] bytes.  [raw] is the whole of [_raw]; a
    record that does not lie within it cannot be read. *)
Definition event_at (raw : list byte) (off : nat) : option (Event * nat) :=
  match read_header (skipn off raw) with
  | None => None
  | Some h =>
      let n := Z.to_nat (inotify_event.len h) in
      if Nat.leb (off + sizeof_inotify_event + n) (length raw)
      then Some (mkEvent (inotify_event.wd h) (inotify_event.mask h)
                   (inotify_event.cookie h)
                   (firstn n (skipn (off + sizeof_inotify_event) raw)), n)
      else None
  end.

(** The loop of [_emit_data(bytes)]: [off] is [ptr - _raw], [handler] is the
    answer of [data_sig.raise], [raised] the events raised so far. *)
Equations? emit_loop (handler : Event -> bool) (raw : list byte) (bytes off : nat)
  (raised : list Event) : outcome (bool * list Event) by wf (bytes - off)%nat lt :=
emit_loop handler raw bytes off raised with lt_dec off bytes := {
  | right _ := Ok (true, raised);
  | left _ with event_at raw off := {
    | None := Undefined;
    | Some (event, n) with handler event := {
      | false := Ok (false, raised ++ [event]);
      | true :=
          emit_loop handler raw bytes (off + sizeof_inotify_event + n)
            (raised ++ [event]) } } }.
Proof.
  unfold sizeof_inotify_event. lia.
Qed.

(** [_emit_data(bytes)]: [connected] is [data_sig.is_connected()], [nbytes]
    what [::read] returns and [raw] the content of [_raw] after it. *)
Definition _emit_data (connected : bool) (handler : Event -> bool) (nbytes : Z)
  (raw : list byte) (bytes : Z) : outcome (bool * list Event) :=
  if connected
  then
    if nbytes <? 0 then Ok (false, [])
    else emit_loop handler raw (Z.to_nat bytes) 0 []
  else Ok (true, []).

(** The buffer of the object: the array [_raw] points to ([[]] for the null
    pointer) and [_raw_len]. *)
Record buffer := mkBuffer { _raw : list byte; _raw_len : nat }.

(** How a call that may allocate ends: it returns, or it is left by the
    [std::bad_alloc] that [new char[n]] throws; [b] is the buffer of the
    object at that moment. *)
Inductive completion (A : Type) : Type :=
| returns (a : A)
| bad_alloc (b : buffer).

Arguments returns {A} a.
Arguments bad_alloc {A} b.

(** [_resize(new_size)]; [fresh] is what [new char[new_size]] does: it
    yields an array, whose content is whatever the allocator left there, or
    it throws [std::bad_alloc] ([None]).  The exception is thrown before
    [_raw] is assigned, so it leaves the call with the buffer as it was.
    The pointer of an array is never null: the test of the pointer fails,
    the old array is deleted and [_raw_len] becomes [new_size]. *)
Definition _resize (fresh : option (list byte)) (new_size : nat) (b : buffer)
  : completion (bool * buffer) :=
  if Nat.ltb (_raw_len b) new_size
  then
    match fresh with
    | None => bad_alloc b
    | Some arr => returns (true, mkBuffer arr new_size)
    end
  else returns (true, b).

(** What one call of [poll(timeout)] meets: the answer of [can_read], the
    return value of [ioctl] and the count it stores in [fsize], the array a
    growth of the buffer allocates ([None] when the allocation throws
    [std::bad_alloc]), whether a handler is connected to
    [data_sig] and what it answers, and the bytes [::read] delivers ([None]
    when it fails). *)
Record poll_env := mk_poll_env {
  can_read : bool;
  ioctl_ret : Z;
  fsize : Z;
  fresh : option (list byte);
  connected : bool;
  handler : Event -> bool;
  read_ret : option (list byte)
}.

(** [int] to [size_t] on an LP64 target. *)
Definition to_size_t (z : Z) : nat := Z.to_nat (z mod 2 ^ 64).

(** [::read(fd, _raw, bytes)] writes the bytes it delivers, at most [bytes]
    of them, over the start of the array and returns their number, or
    returns -1. *)
Definition read_into (delivered : option (list byte)) (bytes : Z) (raw : list byte)
  : Z * list byte :=
  match delivered with
  | None => (-1, raw)
  | Some d =>
      let d' := firstn (to_size_t bytes) d in
      (Z.of_nat (length d'), d' ++ skipn (length d') raw)
  end.

(** [poll(timeout)]: the result, the buffer afterwards and the events
    raised on [data_sig].  An exception of [_resize] is not caught: it
    leaves [poll] too, before anything is read or raised. *)
Definition poll (env : poll_env) (b : buffer)
  : outcome (completion (bool * buffer * list Event)) :=
  if can_read env
  then
    if ioctl_ret env <? 0 then Ok (returns (false, b, []))
    else
      match _resize (fresh env) (to_size_t (fsize env)) b with
      | bad_alloc b0 => Ok (bad_alloc b0)
      | returns (ok, b1) =>
          if negb ok then Ok (returns (false, b1, []))
          else
            let (nbytes, raw) :=
              if connected env then read_into (read_ret env) (fsize env) (_raw b1)
              else (0, _raw b1) in
            '(r, raised) <- _emit_data (connected env) (handler env) nbytes raw (fsize env) ;;
            Ok (returns (r, mkBuffer raw (_raw_len b1), raised))
      end
  else Ok (returns (true, b, [])).

End Broadcast.

(** ** Vocabulary of the statements *)

(** Event classes of [sys/inotify.h] used in the examples. *)
Definition IN_MODIFY : Z := 0x2.
Definition IN_CREATE : Z := 0x100.
Definition IN_DELETE : Z := 0x200.

(** The pair a binding is filed under. *)
Definition key (s : sig_info.t) : Z * Z := (sig_info.wd s, sig_info.mask s).

Definition same_key (wd mask : Z) (s : sig_info.t) : bool :=
  (sig_info.wd s =? wd) && (sig_info.mask s =? mask).

(** A binding of [wd] is triggered by an event of mask [emask]. *)
Definition triggers (wd emask : Z) (s : sig_info.t) : bool :=
  (sig_info.wd s =? wd) && negb (Z.land (sig_info.mask s) emask =? 0).

Definition on_wd (wd : Z) (e : InotifyEvent.t) : bool := InotifyEvent.wd e =? wd.

(** The descriptors of the registry are pairwise distinct. *)
Definition registry_ok (st : Inotify) : Prop := NoDup (map Watch.wd (_watches st)).

(** The table holds at most one binding per (descriptor, mask) pair. *)
Definition handlers_ok (st : Inotify) : Prop := NoDup (map key (_sigs st)).

(** Every binding is bound to a registered descriptor. *)
Definition bindings_registered (st : Inotify) : Prop :=
  forall s, In s (_sigs st) -> In (sig_info.wd s) (map Watch.wd (_watches st)).

(** The failure value of [inotify_add_watch] is no registered descriptor. *)
Definition sentinel_free (st : Inotify) : Prop :=
  ~ In (-1) (map Watch.wd (_watches st)).

Definition consistent (st : Inotify) : Prop :=
  registry_ok st /\ handlers_ok st /\ bindings_registered st /\ sentinel_free st.

(** A read of the sink that hands no data over and returns a code [pollFd]
    accepts. *)
Definition quiet (r : sink_read) : Prop :=
  delivered r = None /\ (code r = SUCCESS \/ code r = NO_DATA).

(** The events a list of dispatches went through, and the bindings raised. *)
Definition dispatched (tr : list dispatch) : list InotifyEvent.t := map fst tr.

Definition fired (tr : list dispatch) (e : InotifyEvent.t) (b : sig_info.t) : Prop :=
  exists bs, In (e, bs) tr /\ In b bs.

(** ** Example states *)

Import String.StringSyntax.
Delimit Scope string_scope with string.

(** A watch on a directory, as [add_watch] registers it. *)
Definition watch_a : Watch.t :=
  Watch.make (Z.lor IN_CREATE IN_DELETE) "/tmp/a"%string 5.

Definition bind_create : sig_info.t := sig_info.make IN_CREATE 1%nat 5.

Definition bind_create_delete : sig_info.t :=
  sig_info.make (Z.lor IN_CREATE IN_DELETE) 2%nat 5.

(** "foo" as the kernel pads it to 16 bytes. *)
Definition name_foo : list byte :=
  [x66; x6f; x6f; x00; x00; x00; x00; x00; x00; x00; x00; x00; x00; x00; x00; x00].

Definition ev_create_delete : InotifyEvent.t :=
  InotifyEvent.make 5 (Z.lor IN_CREATE IN_DELETE) 0 16 [x66; x6f; x6f].

Definition ev_create : InotifyEvent.t :=
  InotifyEvent.make 5 IN_CREATE 0 16 [x66; x6f; x6f].

(** An event of a descriptor that no watch of the registry has. *)
Definition ev_other : InotifyEvent.t :=
  InotifyEvent.make 9 IN_CREATE 0 16 [x66; x6f; x6f].

(** The registry holds [watch_a] alone. *)
Definition st_watch : Inotify := mkInotify [] [] [watch_a].

(** One binding on the watch. *)
Definition st_bound : Inotify := mkInotify [] [bind_create] [watch_a].

(** Two bindings with overlapping masks and one queued event. *)
Definition st_overlap : Inotify :=
  mkInotify [ev_create_delete] [bind_create; bind_create_delete] [watch_a].

(** One queued event, no binding. *)
Definition st_queued : Inotify := mkInotify [ev_create_delete] [] [watch_a].

(** A queued event of an unregistered descriptor. *)
Definition st_stray : Inotify := mkInotify [ev_other] [] [watch_a].

(** Header of a record of descriptor 5 and mask [IN_CREATE] with no name
    ([len = 0]), and one that announces a 16-byte name. *)
Definition header_no_name : list byte :=
  [x05; x00; x00; x00;  x00; x01; x00; x00;  x00; x00; x00; x00;  x00; x00; x00; x00].

Definition header_name16 : list byte :=
  [x05; x00; x00; x00;  x00; x01; x00; x00;  x00; x00; x00; x00;  x10; x00; x00; x00].

(** Complete records as the kernel writes them: [ev_create_delete] and
    [ev_other]. *)
Definition record_create_delete : list byte :=
  [x05; x00; x00; x00;  x00; x03; x00; x00;  x00; x00; x00; x00;  x10; x00; x00; x00]
  ++ name_foo.

Definition record_other : list byte :=
  [x09; x00; x00; x00;  x00; x01; x00; x00;  x00; x00; x00; x00;  x10; x00; x00; x00]
  ++ name_foo.

(** A record whose header announces 16 name bytes, cut after 4 of them. *)
Definition truncated_name : list byte := header_name16 ++ [x66; x6f; x6f; x00].

(** ** The records the kernel writes *)

Definition byte_of (z : Z) : byte :=
  match Byte.of_N (Z.to_N (z mod 256)) with
  | Some b => b
  | None => x00
  end.

(** The four bytes of a 32-bit word, least significant first. *)
Definition encode_uint32 (z : Z) : list byte :=
  [byte_of z; byte_of (z / 256); byte_of (z / 256 / 256); byte_of (z / 256 / 256 / 256)].

(** The record of an event as inotify(7) lays it out, which is the layout
    the cast to [struct inotify_event] reads: the header, then [len] bytes
    that hold the name and its padding of NUL bytes. *)
Definition encode_record (e : InotifyEvent.t) : list byte :=
  encode_uint32 (to_uint32 (InotifyEvent.wd e))
  ++ encode_uint32 (InotifyEvent.mask e)
  ++ encode_uint32 (InotifyEvent.cookie e)
  ++ encode_uint32 (InotifyEvent.len e)
  ++ InotifyEvent.name e
  ++ repeat x00 (Z.to_nat (InotifyEvent.len e) - length (InotifyEvent.name e)).

Definition encode_records (evs : list InotifyEvent.t) : list byte :=
  flat_map encode_record evs.

(** An event the kernel writes with a name: the fields fit their types, the
    name holds no NUL byte and is shorter than [len], so that it is
    terminated within its field. *)
Definition named_event (e : InotifyEvent.t) : Prop :=
  - 2 ^ 31 <= InotifyEvent.wd e < 2 ^ 31 /\
  0 <= InotifyEvent.mask e < 2 ^ 32 /\
  0 <= InotifyEvent.cookie e < 2 ^ 32 /\
  0 <= InotifyEvent.len e < 2 ^ 32 /\
  Z.of_nat (length (InotifyEvent.name e)) < InotifyEvent.len e /\
  ~ In x00 (InotifyEvent.name e).

(** The event [_emit_data] builds from the same record: its name is the
    whole field, padding included. *)
Definition broadcast_event (e : InotifyEvent.t) : Broadcast.Event :=
  Broadcast.mkEvent (InotifyEvent.wd e) (InotifyEvent.mask e) (InotifyEvent.cookie e)
    (InotifyEvent.name e
     ++ repeat x00 (Z.to_nat (InotifyEvent.len e) - length (InotifyEvent.name e))).

(** ** [mask2name] *)

(** The other event classes of [sys/inotify.h] that [mask2name] knows. *)
Definition IN_ACCESS : Z := 0x1.
Definition IN_ATTRIB : Z := 0x4.
Definition IN_CLOSE_WRITE : Z := 0x8.
Definition IN_CLOSE_NOWRITE : Z := 0x10.
Definition IN_OPEN : Z := 0x20.
Definition IN_MOVED_FROM : Z := 0x40.
Definition IN_MOVED_TO : Z := 0x80.
Definition IN_DELETE_SELF : Z := 0x400.
Definition IN_MOVE_SELF : Z := 0x800.

(** [m[k] = v] on a [std::map], kept as the list of its pairs in the order
    of the keys, which is the order an iteration goes through. *)
Fixpoint map_assign (k : Z) (v : String.string) (m : list (Z * String.string))
  : list (Z * String.string) :=
  match m with
  | [] => [(k, v)]
  | (k', v') :: rest =>
      if k <? k' then (k, v) :: m
      else if k =? k' then (k, v) :: rest
      else (k', v') :: map_assign k v rest
  end.

(** [int2str] after the twelve assignments, made in the order of the
    source. *)
Definition int2str : list (Z * String.string) :=
  map_assign IN_OPEN "IN_OPEN"%string
    (map_assign IN_MOVED_TO "IN_MOVED_TO"%string
      (map_assign IN_MOVED_FROM "IN_MOVED_FROM"%string
        (map_assign IN_MOVE_SELF "IN_MOVE_SELF"%string
          (map_assign IN_MODIFY "IN_MODIFY"%string
            (map_assign IN_DELETE_SELF "IN_DELETE_SELF"%string
              (map_assign IN_DELETE "IN_DELETE"%string
                (map_assign IN_CREATE "IN_CREATE"%string
                  (map_assign IN_CLOSE_NOWRITE "IN_CLOSE_NOWRITE"%string
                    (map_assign IN_CLOSE_WRITE "IN_CLOSE_WRITE"%string
                      (map_assign IN_ATTRIB "IN_ATTRIB"%string
                        (map_assign IN_ACCESS "IN_ACCESS"%string []))))))))))).

Definition delimiter : String.string := " | "%string.

(** The loop over [int2str]: [output += (iter->second + " | ")] for every
    class the mask has. *)
Fixpoint mask2name_loop (mask : Z) (m : list (Z * String.string))
  (output : String.string) : String.string :=
  match m with
  | [] => output
  | (k, v) :: rest =>
      mask2name_loop mask rest
        (if negb (Z.land mask k =? 0)
         then String.append output (String.append v delimiter)
         else output)
  end.

Definition mask2name (mask : Z) : String.string :=
  if mask =? 0 then ""%string
  else
    let output := mask2name_loop mask int2str ""%string in
    if negb (String.eqb output ""%string)
    then String.substring 0 (String.length output - 3) output
    else output.

(** The names of the classes a mask has, in the order of their bits. *)
Definition class_names (mask : Z) : list String.string :=
  map snd (filter (fun kv => negb (Z.land mask (fst kv) =? 0)) int2str).

(** What the loop has appended to its output: every name followed by the
    delimiter. *)
Fixpoint delimited (names : list String.string) : String.string :=
  match names with
  | [] => ""%string
  | v :: rest => String.append (String.append v delimiter) (delimited rest)
  end.

(** A read of the sink that hands the records of [evs] to the reader and
    reports success. *)
Definition delivers (evs : list InotifyEvent.t) : sink_read :=
  mk_sink_read (Some (encode_records evs)) SUCCESS.

(** The buffer's [_raw_len] is the size of the array [_raw] points to. *)
Definition buffer_ok (b : Broadcast.buffer) : Prop :=
  Broadcast._raw_len b = length (Broadcast._raw b).

(** Two watches, and an event of the second queued before an event of the
    first. *)
Definition watch_b : Watch.t := Watch.make IN_CREATE "/tmp/b"%string 9.

Definition st_two_watches : Inotify :=
  mkInotify [ev_other; ev_create_delete] [bind_create] [watch_a; watch_b].

(** ** Registry lemmas *)

Lemma exists_loop_In (wd : Z) (ws : watch_l) :
  exists_loop wd ws = true <-> In wd (map Watch.wd ws).
Proof.
  induction ws as [|w ws IH]; simpl.
  - split; [discriminate | tauto].
  - destruct (Z.eqb_spec (Watch.wd w) wd) as [E|E].
    + split; auto.
    + rewrite IH. split; [auto | intros [H|H]; [contradiction | exact H]].
Qed.

Lemma exists_loop_false (wd : Z) (ws : watch_l) :
  exists_loop wd ws = false <-> ~ In wd (map Watch.wd ws).
Proof.
  rewrite <- exists_loop_In. destruct (exists_loop wd ws); split; congruence.
Qed.

Lemma update_watch_loop_map (wd mask : Z) (ws : watch_l) :
  NoDup (map Watch.wd ws) ->
  In wd (map Watch.wd ws) ->
  update_watch_loop wd mask ws =
  (wd, map (fun x => if Watch.wd x =? wd
                     then Watch.make mask (Watch.path x) (Watch.wd x) else x) ws).
Proof.
  induction ws as [|w ws IH]; simpl; intros ND HIn; [contradiction|].
  inversion ND as [|? ? Hnotin ND']; subst.
  destruct (Z.eqb_spec (Watch.wd w) wd) as [E|E].
  - subst wd. f_equal. f_equal.
    clear IH HIn ND ND'. induction ws as [|x ws IH]; simpl; [reflexivity|].
    simpl in Hnotin.
    destruct (Z.eqb_spec (Watch.wd x) (Watch.wd w)) as [E|E].
    + exfalso. apply Hnotin. left. exact E.
    + f_equal. apply IH. intro H. apply Hnotin. right. exact H.
  - destruct HIn as [H|H]; [contradiction|].
    rewrite (IH ND' H). reflexivity.
Qed.

Lemma add_watch_registry_ok (kernel_wd : Z) (path : string) (mask : Z) (st : Inotify) :
  registry_ok st -> registry_ok (snd (add_watch kernel_wd path mask st)).
Proof.
  unfold registry_ok, add_watch, update_watch. intros ND.
  destruct (exists_ kernel_wd st) eqn:Ex.
  - apply exists_loop_In in Ex.
    rewrite (update_watch_loop_map _ _ _ ND Ex). simpl.
    rewrite map_map.
    erewrite map_ext; [exact ND|].
    intros x. simpl. destruct (Watch.wd x =? kernel_wd); reflexivity.
  - destruct (kernel_wd =? -1); simpl; [exact ND|].
    rewrite map_app. simpl.
    apply exists_loop_false in Ex.
    apply NoDup_app; [exact ND | repeat constructor; simpl; tauto |].
    intros x Hx [Hy|[]]. subst x. exact (Ex Hx).
Qed.

(** ** Handler table lemmas *)

Lemma sig_exists_loop_existsb (wd mask : Z) (sigs : signal_l) :
  sig_exists_loop wd mask sigs = existsb (same_key wd mask) sigs.
Proof.
  induction sigs as [|s sigs IH]; simpl; [reflexivity|].
  unfold same_key at 1. destruct ((sig_info.wd s =? wd) && (sig_info.mask s =? mask)); auto.
Qed.

Lemma same_key_key (wd mask : Z) (s : sig_info.t) :
  same_key wd mask s = true <-> key s = (wd, mask).
Proof.
  unfold same_key, key. rewrite andb_true_iff, !Z.eqb_eq.
  split; [intros [-> ->]; reflexivity | intros H; inversion H; auto].
Qed.

(** [detach(wd, mask)] erases the first binding of the pair. *)
Lemma detach_loop_found (wd mask : Z) (sigs : signal_l) :
  sig_exists_loop wd mask sigs = true ->
  exists l1 b l2,
    sigs = l1 ++ b :: l2 /\ same_key wd mask b = true /\
    (forall x, In x l1 -> same_key wd mask x = false) /\
    detach_loop wd mask sigs = (true, l1 ++ l2).
Proof.
  induction sigs as [|s sigs IH]; simpl; [discriminate|].
  fold (same_key wd mask s).
  destruct (same_key wd mask s) eqn:K; intros H.
  - exists [], s, sigs. simpl. repeat split; auto. intros x [].
  - destruct (IH H) as (l1 & b & l2 & -> & Kb & Hl1 & Hd).
    exists (s :: l1), b, l2. rewrite Hd. simpl. repeat split; auto.
    intros x [<-|Hx]; auto.
Qed.

Lemma detach_loop_absent (wd mask : Z) (sigs : signal_l) :
  sig_exists_loop wd mask sigs = false ->
  detach_loop wd mask sigs = (false, sigs).
Proof.
  induction sigs as [|s sigs IH]; simpl; [reflexivity|].
  destruct ((sig_info.wd s =? wd) && (sig_info.mask s =? mask)); [discriminate|].
  intros H. rewrite (IH H). reflexivity.
Qed.

Lemma filter_none {A : Type} (f : A -> bool) (l : list A) :
  (forall x, In x l -> f x = false) -> filter f l = [].
Proof.
  induction l as [|a l IH]; simpl; intros H; [reflexivity|].
  rewrite (H a (or_introl eq_refl)). apply IH. intros x Hx. apply H. right. exact Hx.
Qed.

Lemma filter_all {A : Type} (f : A -> bool) (l : list A) :
  (forall x, In x l -> f x = true) -> filter f l = l.
Proof.
  induction l as [|a l IH]; simpl; intros H; [reflexivity|].
  rewrite (H a (or_introl eq_refl)). f_equal. apply IH. intros x Hx. apply H. right. exact Hx.
Qed.

(** In a table without duplicate pairs, erasing the first binding of a pair
    erases every binding of the pair. *)
Lemma detach_loop_filter (wd mask : Z) (sigs : signal_l) :
  NoDup (map key sigs) ->
  snd (detach_loop wd mask sigs) = filter (fun s => negb (same_key wd mask s)) sigs.
Proof.
  induction sigs as [|s sigs IH]; simpl; intros ND; [reflexivity|].
  inversion ND as [|? ? Hnotin ND']; subst.
  fold (same_key wd mask s).
  destruct (same_key wd mask s) eqn:K; simpl.
  - symmetry. apply filter_all. intros x Hx.
    destruct (same_key wd mask x) eqn:Kx; [|reflexivity].
    exfalso. apply Hnotin. apply same_key_key in K, Kx.
    rewrite K, <- Kx. apply in_map. exact Hx.
  - specialize (IH ND'). destruct (detach_loop wd mask sigs) as [r rest].
    simpl in *. rewrite IH. reflexivity.
Qed.

Lemma filter_negb_absent (wd mask : Z) (sigs : signal_l) :
  sig_exists_loop wd mask sigs = false ->
  filter (fun s => negb (same_key wd mask s)) sigs = sigs.
Proof.
  rewrite sig_exists_loop_existsb. intros H. apply filter_all. intros x Hx.
  destruct (same_key wd mask x) eqn:K; [|reflexivity].
  assert (existsb (same_key wd mask) sigs = true)
    by (apply existsb_exists; exists x; auto).
  congruence.
Qed.

Lemma NoDup_map_filter {A B : Type} (g : A -> B) (f : A -> bool) (l : list A) :
  NoDup (map g l) -> NoDup (map g (filter f l)).
Proof.
  induction l as [|a l IH]; simpl; intros ND; [constructor|].
  inversion ND as [|? ? Hnotin ND']; subst.
  destruct (f a); simpl; [constructor|]; auto.
  intros H. apply Hnotin. apply in_map_iff in H. destruct H as (x & E & Hx).
  apply filter_In in Hx. rewrite <- E. apply in_map. tauto.
Qed.

(** A successful [attach]: the binding of the pair, if any, gives way to the
    new one, which goes to the end of the table. *)
Lemma attach_valid (wd mask : Z) (h : nat) (st : Inotify) :
  exists_ wd st = true ->
  handlers_ok st ->
  attach wd mask (func h) st =
  (true, set_sigs (filter (fun s => negb (same_key wd mask s)) (_sigs st)
                   ++ [sig_info.make mask h wd]) st).
Proof.
  unfold attach, handlers_ok, sig_exists, detach. intros Ex ND. rewrite Ex. simpl.
  destruct (sig_exists_loop wd mask (_sigs st)) eqn:SE.
  - pose proof (detach_loop_filter wd mask _ ND) as F.
    destruct (detach_loop wd mask (_sigs st)) as [r rest]. simpl in *.
    rewrite F. reflexivity.
  - rewrite (filter_negb_absent _ _ _ SE). destruct st; reflexivity.
Qed.

Lemma attach_handlers_ok (wd mask : Z) (f : callable) (st : Inotify) :
  handlers_ok st -> handlers_ok (snd (attach wd mask f st)).
Proof.
  unfold attach, handlers_ok, sig_exists, detach. intros ND.
  destruct (exists_ wd st); simpl; [|exact ND].
  assert (F : _sigs (if sig_exists_loop wd mask (_sigs st)
                     then snd (let (r, sigs) := detach_loop wd mask (_sigs st)
                               in (r, set_sigs sigs st))
                     else st)
              = filter (fun s => negb (same_key wd mask s)) (_sigs st)).
  { destruct (sig_exists_loop wd mask (_sigs st)) eqn:SE.
    - pose proof (detach_loop_filter wd mask _ ND) as F.
      destruct (detach_loop wd mask (_sigs st)) as [r rest]. exact F.
    - symmetry. apply filter_negb_absent. exact SE. }
  destruct (Signal_attach f) as [sg|]; simpl; rewrite F.
  - rewrite map_app. simpl.
    apply NoDup_app; [apply NoDup_map_filter; exact ND | repeat constructor; simpl; tauto |].
    intros x Hx [Hy|[]]. apply in_map_iff in Hx. destruct Hx as (s & E & Hs).
    apply filter_In in Hs. destruct Hs as [_ Hs].
    assert (K : same_key wd mask s = true).
    { apply same_key_key. rewrite E, <- Hy. reflexivity. }
    rewrite K in Hs. discriminate.
  - apply NoDup_map_filter. exact ND.
Qed.

Lemma raise_loop_filter (wd emask : Z) (sigs : signal_l) :
  raise_loop wd emask sigs = filter (triggers wd emask) sigs.
Proof.
  induction sigs as [|s sigs IH]; simpl; [reflexivity|].
  unfold triggers at 1. rewrite IH. reflexivity.
Qed.

Lemma filter_filter_same {A : Type} (f : A -> bool) (l : list A) :
  filter f (filter f l) = filter f l.
Proof.
  apply filter_all. intros x Hx. apply filter_In in Hx. tauto.
Qed.

Lemma filter_key_of_rest (wd mask : Z) (g : sig_info.t -> bool) (sigs : signal_l) :
  filter (same_key wd mask)
    (filter g (filter (fun s => negb (same_key wd mask s)) sigs)) = [].
Proof.
  apply filter_none. intros x Hx.
  apply filter_In in Hx. destruct Hx as [Hx _].
  apply filter_In in Hx. destruct Hx as [_ Hx].
  destruct (same_key wd mask x); [discriminate | reflexivity].
Qed.

Lemma same_key_make (wd mask : Z) (h : signal) :
  same_key wd mask (sig_info.make mask h wd) = true.
Proof.
  unfold same_key. simpl. rewrite !Z.eqb_refl. reflexivity.
Qed.

(** C9: after [attach(d, m, h1)] and then [attach(d, m, h2)], both of which
    succeed for a registered descriptor [d], the table holds exactly one
    binding for the pair [(d, m)], the one of [h2], placed last; the other
    bindings are kept in their order; and of the bindings of [(d, m)] an
    event of [d] raises [h2] alone when its mask meets [m], none otherwise.
    No [detach] is needed between the two calls. *)
Theorem attach_twice_last_wins (d m : Z) (h1 h2 : nat) (st : Inotify) :
  exists_ d st = true ->
  handlers_ok st ->
  let r1 := attach d m (func h1) st in
  let r2 := attach d m (func h2) (snd r1) in
  fst r1 = true /\ fst r2 = true /\
  _sigs (snd r2) =
    filter (fun s => negb (same_key d m s)) (_sigs st) ++ [sig_info.make m h2 d] /\
  filter (same_key d m) (_sigs (snd r2)) = [sig_info.make m h2 d] /\
  forall emask : Z,
    filter (same_key d m) (raise_loop d emask (_sigs (snd r2))) =
    if Z.land m emask =? 0 then [] else [sig_info.make m h2 d].
Proof.
  intros Ex OK r1 r2.
  assert (E1 : r1 = (true, set_sigs (filter (fun s => negb (same_key d m s)) (_sigs st)
                                     ++ [sig_info.make m h1 d]) st))
    by (apply attach_valid; assumption).
  assert (OK1 : handlers_ok (snd r1)) by (apply attach_handlers_ok; exact OK).
  assert (Ex1 : exists_ d (snd r1) = true) by (rewrite E1; exact Ex).
  assert (E2 : r2 = (true, set_sigs (filter (fun s => negb (same_key d m s)) (_sigs (snd r1))
                                     ++ [sig_info.make m h2 d]) (snd r1)))
    by (apply attach_valid; assumption).
  assert (S2 : _sigs (snd r2) =
               filter (fun s => negb (same_key d m s)) (_sigs st) ++ [sig_info.make m h2 d]).
  { rewrite E2, E1. simpl. rewrite filter_app, filter_filter_same. simpl.
    rewrite same_key_make. simpl. rewrite app_nil_r. reflexivity. }
  split; [rewrite E1; reflexivity|].
  split; [rewrite E2; reflexivity|].
  split; [exact S2|].
  split.
  - rewrite S2, filter_app. simpl. rewrite same_key_make.
    rewrite (filter_none (same_key d m)); [reflexivity|].
    intros x Hx. apply filter_In in Hx. destruct Hx as [_ Hx].
    destruct (same_key d m x); [discriminate | reflexivity].
  - intros emask. rewrite S2, raise_loop_filter, !filter_app, filter_key_of_rest.
    simpl. unfold triggers. simpl. rewrite Z.eqb_refl. simpl.
    destruct (Z.land m emask =? 0); simpl; [reflexivity|].
    rewrite same_key_make. reflexivity.
Qed.

Lemma sig_exists_registered (d m : Z) (st : Inotify) :
  bindings_registered st -> sig_exists d m st = true -> exists_ d st = true.
Proof.
  unfold sig_exists, exists_. rewrite sig_exists_loop_existsb. intros B SE.
  apply existsb_exists in SE. destruct SE as (b & Hb & K).
  apply andb_true_iff in K. destruct K as [K _]. apply Z.eqb_eq in K.
  apply exists_loop_In. rewrite <- K. apply B. exact Hb.
Qed.

(** C10: let a binding of the pair [(d, m)] exist in an object whose
    bindings are all bound to registered descriptors.  When [attach(d, m, h)]
    is called with a handler [h] that the signal refuses, the call returns
    false and the table has lost the first binding of [(d, m)]: the table is
    not the one before the call, and, no pair being bound twice, no binding
    of [(d, m)] is left.  The registry and the queue are untouched. *)
Theorem attach_invalid_loses_binding (d m : Z) (st : Inotify) :
  bindings_registered st ->
  sig_exists d m st = true ->
  let r := attach d m null_func st in
  fst r = false /\
  (exists l1 b l2,
      _sigs st = l1 ++ b :: l2 /\ key b = (d, m) /\
      (forall x, In x l1 -> key x <> (d, m)) /\
      _sigs (snd r) = l1 ++ l2) /\
  _sigs (snd r) <> _sigs st /\
  _watches (snd r) = _watches st /\
  _event_queue (snd r) = _event_queue st /\
  (handlers_ok st -> sig_exists d m (snd r) = false).
Proof.
  intros B SE r. pose proof (sig_exists_registered d m st B SE) as Ex.
  assert (R : r = (false, set_sigs (snd (detach_loop d m (_sigs st))) st)).
  { unfold r, attach, detach. rewrite Ex, SE. simpl.
    destruct (detach_loop d m (_sigs st)); reflexivity. }
  destruct (detach_loop_found d m (_sigs st) SE) as (l1 & b & l2 & Hs & Kb & Hl1 & Hd).
  rewrite R, Hd. simpl.
  split; [reflexivity|].
  split.
  { exists l1, b, l2. repeat split; auto.
    - apply same_key_key. exact Kb.
    - intros x Hx K. apply same_key_key in K. rewrite (Hl1 x Hx) in K. discriminate. }
  split.
  { rewrite Hs. intros E. apply (f_equal (@length _)) in E.
    rewrite !length_app in E. simpl in E. lia. }
  split; [reflexivity|].
  split; [reflexivity|].
  intros OK. unfold sig_exists. simpl.
  pose proof (detach_loop_filter d m (_sigs st) OK) as F. rewrite Hd in F. simpl in F.
  rewrite F, sig_exists_loop_existsb.
  destruct (existsb (same_key d m) (filter (fun s => negb (same_key d m s)) (_sigs st))) eqn:X;
    [|reflexivity].
  apply existsb_exists in X. destruct X as (x & Hx & Kx).
  apply filter_In in Hx. rewrite Kx in Hx. destruct Hx. discriminate.
Qed.

(** Witness of [attach_twice_last_wins]: two handlers attached in turn to
    [IN_CREATE] on the watch of [st_watch]. *)
Lemma attach_twice_last_wins_witness :
  exists_ 5 st_watch = true /\ handlers_ok st_watch /\
  let r1 := attach 5 IN_CREATE (func 1) st_watch in
  let r2 := attach 5 IN_CREATE (func 2) (snd r1) in
  fst r1 = true /\ fst r2 = true /\
  _sigs (snd r2) =
    filter (fun s => negb (same_key 5 IN_CREATE s)) (_sigs st_watch)
    ++ [sig_info.make IN_CREATE 2%nat 5] /\
  filter (same_key 5 IN_CREATE) (_sigs (snd r2)) = [sig_info.make IN_CREATE 2%nat 5] /\
  forall emask : Z,
    filter (same_key 5 IN_CREATE) (raise_loop 5 emask (_sigs (snd r2))) =
    if Z.land IN_CREATE emask =? 0 then [] else [sig_info.make IN_CREATE 2%nat 5].
Proof.
  split; [reflexivity|].
  split; [constructor|].
  apply (attach_twice_last_wins 5 IN_CREATE 1 2 st_watch); [reflexivity | constructor].
Defined.

(** Witness of [attach_invalid_loses_binding]: a null handler re-attached to
    the pair bound in [st_bound]. *)
Lemma attach_invalid_loses_binding_witness :
  bindings_registered st_bound /\ sig_exists 5 IN_CREATE st_bound = true /\
  let r := attach 5 IN_CREATE null_func st_bound in
  fst r = false /\
  (exists l1 b l2,
      _sigs st_bound = l1 ++ b :: l2 /\ key b = (5, IN_CREATE) /\
      (forall x, In x l1 -> key x <> (5, IN_CREATE)) /\
      _sigs (snd r) = l1 ++ l2) /\
  _sigs (snd r) <> _sigs st_bound /\
  _watches (snd r) = _watches st_bound /\
  _event_queue (snd r) = _event_queue st_bound /\
  (handlers_ok st_bound -> sig_exists 5 IN_CREATE (snd r) = false).
Proof.
  assert (B : bindings_registered st_bound).
  { intros s [<-|[]]. left. reflexivity. }
  split; [exact B|].
  split; [reflexivity|].
  apply (attach_invalid_loses_binding 5 IN_CREATE st_bound); [exact B | reflexivity].
Defined.

(** ** Poll cycle lemmas *)

Lemma update_queue_frame (data : list byte) (st : Inotify) (r : bool) (st' : Inotify) :
  update_queue data st = Ok (r, st') ->
  _sigs st' = _sigs st /\ _watches st' = _watches st.
Proof.
  unfold update_queue.
  destruct (update_queue_loop data (_event_queue st)) as [[b q]|]; simpl; [|discriminate].
  intros H. inversion H. split; reflexivity.
Qed.

Lemma pollFd_frame (r : sink_read) (st : Inotify) (ok : bool) (st1 : Inotify) :
  pollFd r st = Ok (ok, st1) ->
  _sigs st1 = _sigs st /\ _watches st1 = _watches st.
Proof.
  unfold pollFd. destruct (delivered r) as [data|]; simpl.
  - destruct (update_queue data st) as [[b st']|] eqn:U; simpl; [|discriminate].
    apply update_queue_frame in U.
    destruct (code r); intros H; inversion H; subst; exact U.
  - destruct (code r); intros H; inversion H; subst; split; reflexivity.
Qed.

Lemma poll_wd_loop_spec (wd : Z) (sigs : signal_l) (queue : list InotifyEvent.t) :
  poll_wd_loop wd sigs queue =
  (map (fun e => (e, filter (triggers wd (InotifyEvent.mask e)) sigs))
       (filter (on_wd wd) queue),
   filter (fun e => negb (on_wd wd e)) queue).
Proof.
  induction queue as [|e queue IH]; simpl; [reflexivity|].
  rewrite IH, raise_loop_filter. unfold on_wd.
  destruct (InotifyEvent.wd e =? wd); reflexivity.
Qed.

(** C1: in a directed poll of [d] whose read of the sink succeeds, a binding
    [b] is raised for a queued event [e] if and only if [e] is an event of
    [d], [b] is a binding of [d] and [e.mask & b.mask] is not zero.  The
    events of [d] are gone through in queue order, and for each of them the
    bindings are raised in the order of the table, which is the order of
    their insertion; so two bindings of [d] whose masks both meet the
    event's are both raised, the older first.  The events of [d] leave the
    queue, the others stay. *)
Theorem poll_wd_fires_iff (r : sink_read) (d : Z) (st st1 : Inotify) :
  pollFd r st = Ok (true, st1) ->
  exists tr : list dispatch,
    poll_wd r d st =
      Ok (true,
          set_event_queue (filter (fun e => negb (on_wd d e)) (_event_queue st1)) st1,
          tr) /\
    (forall e b,
        fired tr e b <->
        In e (_event_queue st1) /\ In b (_sigs st) /\
        InotifyEvent.wd e = d /\ sig_info.wd b = d /\
        Z.land (InotifyEvent.mask e) (sig_info.mask b) <> 0) /\
    tr = map (fun e => (e, filter (triggers d (InotifyEvent.mask e)) (_sigs st)))
             (filter (on_wd d) (_event_queue st1)).
Proof.
  intros P. destruct (pollFd_frame _ _ _ _ P) as [Hs _].
  eexists. split; [|split; [|reflexivity]].
  - unfold poll_wd. rewrite P. simpl. rewrite poll_wd_loop_spec, Hs. reflexivity.
  - intros e b. unfold fired. split.
    + intros (bs & Hin & Hb). apply in_map_iff in Hin.
      destruct Hin as (e' & E & He'). inversion E; subst e' bs. clear E.
      apply filter_In in He'. destruct He' as [He Hw].
      apply filter_In in Hb. destruct Hb as [Hb Ht].
      unfold on_wd in Hw. unfold triggers in Ht.
      apply andb_true_iff in Ht. destruct Ht as [Hbw Hm].
      apply Z.eqb_eq in Hw, Hbw. apply negb_true_iff, Z.eqb_neq in Hm.
      rewrite Z.land_comm. auto.
    + intros (He & Hb & Hw & Hbw & Hm).
      exists (filter (triggers d (InotifyEvent.mask e)) (_sigs st)). split.
      * apply in_map_iff. exists e. split; [reflexivity|].
        apply filter_In. split; [exact He|]. unfold on_wd. apply Z.eqb_eq. exact Hw.
      * apply filter_In. split; [exact Hb|]. unfold triggers.
        apply andb_true_iff. split; [apply Z.eqb_eq; exact Hbw|].
        apply negb_true_iff, Z.eqb_neq. rewrite Z.land_comm. exact Hm.
Qed.

(** Witness of [poll_wd_fires_iff]: the bindings of [IN_CREATE] and of
    [IN_CREATE | IN_DELETE] and an event of mask [IN_CREATE | IN_DELETE]. *)
Lemma poll_wd_fires_iff_witness :
  pollFd no_data st_overlap = Ok (true, st_overlap) /\
  exists tr : list dispatch,
    poll_wd no_data 5 st_overlap =
      Ok (true,
          set_event_queue
            (filter (fun e => negb (on_wd 5 e)) (_event_queue st_overlap)) st_overlap,
          tr) /\
    (forall e b,
        fired tr e b <->
        In e (_event_queue st_overlap) /\ In b (_sigs st_overlap) /\
        InotifyEvent.wd e = 5 /\ sig_info.wd b = 5 /\
        Z.land (InotifyEvent.mask e) (sig_info.mask b) <> 0) /\
    tr = map (fun e => (e, filter (triggers 5 (InotifyEvent.mask e)) (_sigs st_overlap)))
             (filter (on_wd 5) (_event_queue st_overlap)).
Proof.
  split; [reflexivity|].
  apply (poll_wd_fires_iff no_data 5 st_overlap st_overlap). reflexivity.
Defined.

(** The two overlapping bindings are both raised, in insertion order. *)
Example poll_wd_overlapping_masks :
  poll_wd no_data 5 st_overlap =
  Ok (true, set_event_queue [] st_overlap,
      [(ev_create_delete, [bind_create; bind_create_delete])]).
Proof. reflexivity. Qed.

(** ** [detach(wd)] *)

Lemma detach_wd_loop_spec (wd : Z) (visited sigs : signal_l) (success : bool) :
  detach_wd_loop wd visited sigs success =
  if existsb (fun s => sig_info.wd s =? wd) sigs
  then Undefined
  else Ok (success, visited ++ sigs).
Proof.
  revert visited. induction sigs as [|s sigs IH]; intros visited; simpl.
  - rewrite app_nil_r. reflexivity.
  - destruct (sig_info.wd s =? wd); simpl; [reflexivity|].
    rewrite IH, <- app_assoc. reflexivity.
Qed.

(** [detach(wd)] is defined on the tables that hold no binding of [wd], where
    it returns false and changes nothing. *)
Lemma detach_wd_spec (wd : Z) (st : Inotify) :
  detach_wd wd st =
  if existsb (fun s => sig_info.wd s =? wd) (_sigs st)
  then Undefined
  else Ok (false, st).
Proof.
  unfold detach_wd. rewrite detach_wd_loop_spec.
  destruct (existsb _ (_sigs st)); simpl; [reflexivity|].
  destruct st; reflexivity.
Qed.

(** C3, at the failing input: with one binding on descriptor 5,
    [detach(5)] erases the node and then advances the iterator that the
    erasure invalidated; the call has no defined result, so it neither
    returns true nor leaves a table without the binding. *)
Theorem detach_wd_bound_descriptor :
  detach_wd 5 st_bound = Undefined.
Proof. reflexivity. Qed.

(** ** [poll(_queue)] *)

Lemma poll_queue_moves (r : sink_read) (out : list InotifyEvent.t) (st st1 : Inotify) :
  pollFd r st = Ok (true, st1) ->
  _event_queue st1 <> [] ->
  poll_queue r out st = Ok (true, set_event_queue [] st1, _event_queue st1).
Proof.
  intros P Hq. unfold poll_queue. rewrite P. simpl.
  destruct (_event_queue st1); [contradiction | reflexivity].
Qed.

Lemma poll_queue_nothing_queued (r : sink_read) (out : list InotifyEvent.t) (st st1 : Inotify) :
  pollFd r st = Ok (true, st1) ->
  _event_queue st1 = [] ->
  poll_queue r out st = Ok (true, st1, out).
Proof.
  intros P Hq. unfold poll_queue. rewrite P. simpl. rewrite Hq. reflexivity.
Qed.

(** C4, at the failing input: the first [poll(_queue)] moves the queued
    event into the caller's list and empties the internal queue; the second
    call, made right away with the same list and nothing to read, finds the
    internal queue empty, skips the move and leaves the event in the
    caller's list, which is therefore not empty. *)
Theorem poll_queue_second_call_keeps_events :
  poll_queue no_data [] st_queued =
    Ok (true, set_event_queue [] st_queued, [ev_create_delete]) /\
  poll_queue no_data [ev_create_delete] (set_event_queue [] st_queued) =
    Ok (true, set_event_queue [] st_queued, [ev_create_delete]).
Proof. split; reflexivity. Qed.

(** ** [add_watch] on a registered watch *)

Lemma NoDup_map_In_eq {A B : Type} (g : A -> B) (l : list A) (x y : A) :
  NoDup (map g l) -> In x l -> In y l -> g x = g y -> x = y.
Proof.
  induction l as [|a l IH]; simpl; intros ND Hx Hy E; [contradiction|].
  inversion ND as [|? ? Hnotin ND']; subst.
  destruct Hx as [<-|Hx], Hy as [<-|Hy]; auto.
  - exfalso. apply Hnotin. rewrite E. apply in_map. exact Hy.
  - exfalso. apply Hnotin. rewrite <- E. apply in_map. exact Hx.
Qed.

(** C2, counterexample: the registry of [st_watch], which an [add_watch]
    on the fresh object builds, holds the path "/tmp/a" with descriptor 5.
    When the kernel answers an [add_watch] on that same path with the
    descriptor 7, the call returns 7 and not the existing descriptor, the
    stored mask is as it was and the registry holds a second entry for the
    path.  When the kernel answers -1 the call returns -1 and the stored
    mask is as it was. *)
Lemma add_watch_registered_path_second_entry :
  reachable st_watch /\
  _watches st_watch = [watch_a] /\ Watch.path watch_a = "/tmp/a"%string /\
  Watch.wd watch_a = 5 /\
  fst (add_watch 7 "/tmp/a"%string IN_DELETE st_watch) = 7 /\
  _watches (snd (add_watch 7 "/tmp/a"%string IN_DELETE st_watch))
  = [watch_a; Watch.make IN_DELETE "/tmp/a"%string 7] /\
  length (filter (fun x => String.eqb (Watch.path x) "/tmp/a"%string)
            (_watches (snd (add_watch 7 "/tmp/a"%string IN_DELETE st_watch)))) = 2%nat /\
  fst (add_watch (-1) "/tmp/a"%string IN_DELETE st_watch) = -1 /\
  _watches (snd (add_watch (-1) "/tmp/a"%string IN_DELETE st_watch)) = [watch_a].
Proof.
  split.
  { apply (reachable_run
             (call_add_watch 5 "/tmp/a"%string (Z.lor IN_CREATE IN_DELETE)) Inotify_init);
      [apply reachable_init | reflexivity]. }
  repeat split.
Qed.

(** C2, amended: let [w] be the watch a registry with pairwise distinct
    descriptors holds for [path].  An [add_watch] on [path] with mask [m]
    that the kernel answers with the descriptor of [w] returns that
    descriptor and replaces the mask stored for [w] by [m], whatever the
    stored mask was: the registry of the result is the old one with [m] in
    the entry of that descriptor, no entry is added, the paths and the
    descriptors are the same in the same order, the only entry of that
    descriptor is the one of [w] with mask [m], and the handlers and the
    queue are kept. *)
Theorem add_watch_existing_path (kernel_wd : Z) (path : string) (w : Watch.t) (m : Z)
  (st : Inotify) :
  registry_ok st ->
  In w (_watches st) ->
  Watch.path w = path ->
  kernel_wd = Watch.wd w ->
  let r := add_watch kernel_wd path m st in
  fst r = Watch.wd w /\
  _watches (snd r)
  = map (fun x => if Watch.wd x =? Watch.wd w
                  then Watch.make m (Watch.path x) (Watch.wd x) else x)
        (_watches st) /\
  In (Watch.make m path (Watch.wd w)) (_watches (snd r)) /\
  (forall x, In x (_watches (snd r)) -> Watch.wd x = Watch.wd w ->
             x = Watch.make m path (Watch.wd w)) /\
  (forall x, Watch.wd x <> Watch.wd w ->
             (In x (_watches (snd r)) <-> In x (_watches st))) /\
  map Watch.path (_watches (snd r)) = map Watch.path (_watches st) /\
  map Watch.wd (_watches (snd r)) = map Watch.wd (_watches st) /\
  length (_watches (snd r)) = length (_watches st) /\
  _sigs (snd r) = _sigs st /\ _event_queue (snd r) = _event_queue st.
Proof.
  intros ND Hw Hp Hk r. subst path kernel_wd.
  assert (Hin : In (Watch.wd w) (map Watch.wd (_watches st))) by (apply in_map; exact Hw).
  assert (Hr : r = (Watch.wd w,
                    set_watches
                      (map (fun x => if Watch.wd x =? Watch.wd w
                                     then Watch.make m (Watch.path x) (Watch.wd x) else x)
                           (_watches st)) st)).
  { unfold r, add_watch, update_watch.
    replace (exists_ (Watch.wd w) st) with true
      by (symmetry; apply exists_loop_In; exact Hin).
    rewrite (update_watch_loop_map _ m _ ND Hin). reflexivity. }
  rewrite Hr. cbn [fst snd _watches _sigs _event_queue set_watches].
  split; [reflexivity|]. split; [reflexivity|].
  split.
  { apply in_map_iff. exists w. rewrite Z.eqb_refl. auto. }
  split.
  { intros x Hx E. apply in_map_iff in Hx.
    destruct Hx as (y & Hy & Hyin).
    destruct (Z.eqb_spec (Watch.wd y) (Watch.wd w)) as [Ey|Ey].
    - assert (y = w) by (eapply NoDup_map_In_eq; eauto). subst y. auto.
    - subst x. contradiction. }
  split.
  { intros x Hx. rewrite in_map_iff. split.
    - intros (y & Hy & Hyin).
      destruct (Z.eqb_spec (Watch.wd y) (Watch.wd w)) as [Ey|Ey].
      + subst x. simpl in Hx. contradiction.
      + subst x. exact Hyin.
    - intros Hxin. exists x. split; [|exact Hxin].
      destruct (Z.eqb_spec (Watch.wd x) (Watch.wd w)); [contradiction | reflexivity]. }
  rewrite !map_map, length_map.
  split; [|split; [|auto]]; apply map_ext; intros x;
    destruct (Watch.wd x =? Watch.wd w); reflexivity.
Qed.

(** Witness of [add_watch_existing_path]: the watch of [st_watch] re-added
    with [IN_DELETE] alone, the kernel answering with its descriptor 5. *)
Lemma add_watch_existing_path_witness :
  registry_ok st_watch /\ In watch_a (_watches st_watch) /\
  Watch.path watch_a = "/tmp/a"%string /\ 5 = Watch.wd watch_a /\
  let r := add_watch 5 "/tmp/a"%string IN_DELETE st_watch in
  fst r = Watch.wd watch_a /\
  _watches (snd r)
  = map (fun x => if Watch.wd x =? Watch.wd watch_a
                  then Watch.make IN_DELETE (Watch.path x) (Watch.wd x) else x)
        (_watches st_watch) /\
  In (Watch.make IN_DELETE "/tmp/a"%string (Watch.wd watch_a)) (_watches (snd r)) /\
  (forall x, In x (_watches (snd r)) -> Watch.wd x = Watch.wd watch_a ->
             x = Watch.make IN_DELETE "/tmp/a"%string (Watch.wd watch_a)) /\
  (forall x, Watch.wd x <> Watch.wd watch_a ->
             (In x (_watches (snd r)) <-> In x (_watches st_watch))) /\
  map Watch.path (_watches (snd r)) = map Watch.path (_watches st_watch) /\
  map Watch.wd (_watches (snd r)) = map Watch.wd (_watches st_watch) /\
  length (_watches (snd r)) = length (_watches st_watch) /\
  _sigs (snd r) = _sigs st_watch /\ _event_queue (snd r) = _event_queue st_watch.
Proof.
  assert (R : registry_ok st_watch).
  { unfold registry_ok. simpl. constructor; [simpl; tauto | constructor]. }
  split; [exact R|].
  split; [left; reflexivity|].
  split; [reflexivity|]. split; [reflexivity|].
  apply (add_watch_existing_path 5 "/tmp/a"%string watch_a IN_DELETE st_watch);
    [exact R | left; reflexivity | reflexivity | reflexivity].
Defined.

(** The mask of a re-added watch replaces the stored one: [IN_CREATE |
    IN_DELETE] becomes [IN_DELETE]. *)
Example add_watch_replaces_mask :
  add_watch 5 "/tmp/a"%string IN_DELETE st_watch =
  (5, mkInotify [] [] [Watch.make IN_DELETE "/tmp/a"%string 5]).
Proof. reflexivity. Qed.

(** ** The parser on short and truncated records *)

Lemma update_queue_loop_step (p : list byte) (queue : list InotifyEvent.t) :
  update_queue_loop p queue =
  match p with
  | [] => Ok (true, queue)
  | _ :: _ =>
      if Nat.leb (length p) sizeof_inotify_event then Ok (false, queue)
      else
        match InotifyEvent_of p with
        | Undefined => Undefined
        | Ok event =>
            update_queue_loop
              (skipn (sizeof_inotify_event + Z.to_nat (InotifyEvent.len event)) p)
              (queue ++ [event])
        end
  end.
Proof.
  destruct p as [|b p']; simp update_queue_loop; [reflexivity|].
  destruct (Nat.leb (length (b :: p')) sizeof_inotify_event); simpl; [reflexivity|].
  destruct (InotifyEvent_of (b :: p')); reflexivity.
Qed.

(** At most [sizeof (struct inotify_event)] bytes before the end of the
    data: the loop gives up, whatever the bytes are. *)
Lemma update_queue_loop_header_only (p : list byte) (queue : list InotifyEvent.t) :
  (0 < length p <= sizeof_inotify_event)%nat ->
  update_queue_loop p queue = Ok (false, queue).
Proof.
  intros [Hpos Hle]. rewrite update_queue_loop_step.
  destruct p as [|b p']; [simpl in Hpos; lia|].
  apply Nat.leb_le in Hle. rewrite Hle. reflexivity.
Qed.

(** C6, at the failing input: a buffer that is one well-formed record with
    [len = 0], and one where such a record follows a record named "foo".
    The test [data + size <= p + sizeof (struct inotify_event)] holds at the
    last record, whose header ends where the data ends: [update_queue]
    returns false there and queues no event for that record. *)
Theorem update_queue_trailing_record_without_name :
  update_queue header_no_name Inotify_init = Ok (false, Inotify_init) /\
  update_queue (header_name16 ++ name_foo ++ header_no_name) Inotify_init =
    Ok (false, set_event_queue [ev_create] Inotify_init).
Proof. split; reflexivity. Qed.

(** The loop of [_emit_data] has no such test: it raises the event of the
    same record and returns true. *)
Example emit_data_trailing_record_without_name :
  Broadcast._emit_data true (fun _ => true) 16 header_no_name 16 =
  Ok (true, [Broadcast.mkEvent 5 IN_CREATE 0 []]).
Proof. reflexivity. Qed.

(** More than a header remains, but fewer bytes than the header announces:
    the loop queues the event it reads there and ends with success. *)
Lemma update_queue_loop_short_name (p : list byte) (queue : list InotifyEvent.t)
  (event : InotifyEvent.t) :
  (sizeof_inotify_event < length p
     <= sizeof_inotify_event + Z.to_nat (InotifyEvent.len event))%nat ->
  InotifyEvent_of p = Ok event ->
  update_queue_loop p queue = Ok (true, queue ++ [event]).
Proof.
  intros [Hlo Hhi] Hev. rewrite update_queue_loop_step.
  destruct p as [|b p']; [simpl in Hlo; lia|].
  apply Nat.leb_gt in Hlo. rewrite Hlo, Hev.
  rewrite skipn_all2 by exact Hhi. simp update_queue_loop. reflexivity.
Qed.

(** Two complete records are parsed into two events, in their order. *)
Example update_queue_two_records :
  update_queue (record_create_delete ++ record_other) Inotify_init =
  Ok (true, set_event_queue [ev_create_delete; ev_other] Inotify_init).
Proof. reflexivity. Qed.

(** C7, at the failing input: the header announces 16 name bytes and 4 are
    there.  [update_queue] tests the size of the header only: it queues an
    event for the truncated record and returns true, and a poll whose read
    hands these bytes over delivers that event with nothing that tells it
    from a complete one. *)
Theorem update_queue_truncated_name :
  update_queue truncated_name Inotify_init =
    Ok (true, set_event_queue [ev_create] Inotify_init) /\
  poll_queue (mk_sink_read (Some truncated_name) SUCCESS) [] Inotify_init =
    Ok (true, Inotify_init, [ev_create]).
Proof. split; reflexivity. Qed.

(** ** [rm_watch(path)] *)

Lemma rm_watch_path_loop_absent (kernel_rm : Z) (p : string) (ws : watch_l) :
  find (fun w => String.eqb (Watch.path w) p) ws = None ->
  rm_watch_path_loop kernel_rm p ws = (false, -1, ws).
Proof.
  induction ws as [|w ws IH]; simpl; [reflexivity|].
  destruct (String.eqb (Watch.path w) p); [discriminate|].
  intros H. rewrite (IH H). reflexivity.
Qed.

Lemma rm_watch_path_loop_found (kernel_rm : Z) (p : string) (ws : watch_l) (w : Watch.t) :
  find (fun w => String.eqb (Watch.path w) p) ws = Some w ->
  exists l1 l2,
    ws = l1 ++ w :: l2 /\ Watch.path w = p /\
    (forall x, In x l1 -> Watch.path x <> p) /\
    rm_watch_path_loop kernel_rm p ws = (kernel_rm =? 0, Watch.wd w, l1 ++ l2).
Proof.
  induction ws as [|a ws IH]; simpl; [discriminate|].
  destruct (String.eqb_spec (Watch.path a) p) as [E|E]; intros H.
  - inversion H; subst a. exists [], ws. simpl. repeat split; auto; intros x [].
  - destruct (IH H) as (l1 & l2 & -> & Hp & Hl1 & Hr).
    exists (a :: l1), l2. rewrite Hr. simpl. repeat split; auto.
    intros x [<-|Hx]; auto.
Qed.

(** C8, counterexample: on the registry that holds the watch of descriptor 5
    on "/tmp/a", with the kernel accepting the removal, [rm_watch("/tmp/a")]
    removes that watch and returns 1, which is not its descriptor. *)
Lemma rm_watch_path_returns_one :
  _watches st_watch = [watch_a] /\ Watch.wd watch_a = 5 /\
  rm_watch_path 0 "/tmp/a"%string st_watch = Ok (1, Inotify_init) /\
  ~ (exists st', rm_watch_path 0 "/tmp/a"%string st_watch = Ok (Watch.wd watch_a, st')).
Proof.
  repeat split. intros [st' H]. vm_compute in H. discriminate.
Qed.

(** C8, amended: let [target] be the first watch registered for [p], if any,
    and let no handler be bound to its descriptor ([-1] when there is none).
    [rm_watch(p)] returns the truth value of its success as an integer,
    whatever the descriptor of [target] is: 1 when [target] exists and the
    kernel removed the watch, 0 when the kernel refused, and 0 when no watch
    exists for [p].  The entry of [target] leaves the registry, the rest of
    the object is kept. *)
Theorem rm_watch_path_returns_success (kernel_rm : Z) (p : string) (st : Inotify) :
  let target := find (fun w => String.eqb (Watch.path w) p) (_watches st) in
  (forall s, In s (_sigs st) ->
             sig_info.wd s <> match target with Some w => Watch.wd w | None => -1 end) ->
  exists st',
    rm_watch_path kernel_rm p st =
      Ok (match target with
          | Some _ => if kernel_rm =? 0 then 1 else 0
          | None => 0
          end, st') /\
    _sigs st' = _sigs st /\ _event_queue st' = _event_queue st /\
    match target with
    | Some w =>
        exists l1 l2,
          _watches st = l1 ++ w :: l2 /\ Watch.path w = p /\
          (forall x, In x l1 -> Watch.path x <> p) /\
          _watches st' = l1 ++ l2
    | None => _watches st' = _watches st
    end.
Proof.
  intros target Hs. unfold rm_watch_path.
  assert (D : forall d ws,
             (forall s, In s (_sigs st) -> sig_info.wd s <> d) ->
             detach_wd d (set_watches ws st) = Ok (false, set_watches ws st)).
  { intros d ws H. rewrite detach_wd_spec. simpl.
    destruct (existsb (fun s => sig_info.wd s =? d) (_sigs st)) eqn:X; [|reflexivity].
    apply existsb_exists in X. destruct X as (s & Hin & E).
    apply Z.eqb_eq in E. elim (H s Hin E). }
  unfold target in *. clear target.
  destruct (find (fun w => String.eqb (Watch.path w) p) (_watches st)) as [w|] eqn:F.
  - destruct (rm_watch_path_loop_found kernel_rm p _ w F) as (l1 & l2 & Hw & Hp & Hl1 & Hr).
    rewrite Hr. cbv beta iota.
    exists (set_watches (l1 ++ l2) st). rewrite (D _ _ Hs). simpl.
    split; [destruct (kernel_rm =? 0); reflexivity|].
    do 2 (split; [reflexivity|]).
    exists l1, l2. auto.
  - rewrite (rm_watch_path_loop_absent kernel_rm p _ F).
    cbv beta iota.
    exists (set_watches (_watches st) st). rewrite (D _ _ Hs). simpl.
    repeat (split; [reflexivity|]). reflexivity.
Qed.

(** Witness of [rm_watch_path_returns_success]: the watch of [st_watch],
    which has no handler, removed by its path. *)
Lemma rm_watch_path_returns_success_witness :
  let target := find (fun w => String.eqb (Watch.path w) "/tmp/a"%string)
                     (_watches st_watch) in
  (forall s, In s (_sigs st_watch) ->
             sig_info.wd s <> match target with Some w => Watch.wd w | None => -1 end) /\
  exists st',
    rm_watch_path 0 "/tmp/a"%string st_watch =
      Ok (match target with
          | Some _ => if 0 =? 0 then 1 else 0
          | None => 0
          end, st') /\
    _sigs st' = _sigs st_watch /\ _event_queue st' = _event_queue st_watch /\
    match target with
    | Some w =>
        exists l1 l2,
          _watches st_watch = l1 ++ w :: l2 /\ Watch.path w = "/tmp/a"%string /\
          (forall x, In x l1 -> Watch.path x <> "/tmp/a"%string) /\
          _watches st' = l1 ++ l2
    | None => _watches st' = _watches st_watch
    end.
Proof.
  split; [intros s []|].
  apply (rm_watch_path_returns_success 0 "/tmp/a"%string st_watch). intros s [].
Defined.

(** ** [poll()] *)

(** The events the parser queues do not depend on what the queue holds. *)
Lemma update_queue_loop_prefix (p : list byte) (q0 q : list InotifyEvent.t) :
  update_queue_loop p (q0 ++ q) =
  (x <- update_queue_loop p q ;; Ok (fst x, q0 ++ snd x)).
Proof.
  remember (length p) as n eqn:Hn. revert p q Hn.
  induction n as [n IH] using lt_wf_ind. intros p q Hn.
  rewrite (update_queue_loop_step p (q0 ++ q)), (update_queue_loop_step p q).
  destruct p as [|b p']; [reflexivity|].
  destruct (Nat.leb (length (b :: p')) sizeof_inotify_event); [reflexivity|].
  destruct (InotifyEvent_of (b :: p')) as [ev|]; [|reflexivity].
  rewrite <- app_assoc. eapply IH; [|reflexivity].
  subst n. rewrite length_skipn. simpl length. unfold sizeof_inotify_event. lia.
Qed.

Lemma pollFd_prefix (r : sink_read) (q0 : list InotifyEvent.t) (st : Inotify) :
  pollFd r (set_event_queue (q0 ++ _event_queue st) st) =
  (x <- pollFd r st ;;
   Ok (fst x, set_event_queue (q0 ++ _event_queue (snd x)) (snd x))).
Proof.
  unfold pollFd, update_queue. destruct (delivered r) as [data|]; simpl.
  - rewrite update_queue_loop_prefix.
    destruct (update_queue_loop data (_event_queue st)) as [[b q]|]; simpl; [|reflexivity].
    destruct (code r); reflexivity.
  - destruct (code r); reflexivity.
Qed.

Lemma poll_loop_failed (reads : list sink_read) (ws : watch_l) (st : Inotify) :
  poll_loop reads ws false st = Ok (false, st, []).
Proof.
  induction ws as [|w ws IH]; simpl; [reflexivity | exact IH].
Qed.

Lemma dispatched_map (g : InotifyEvent.t -> list sig_info.t) (l : list InotifyEvent.t) :
  dispatched (map (fun e => (e, g e)) l) = l.
Proof.
  unfold dispatched. rewrite map_map. simpl. apply map_id.
Qed.

Lemma filter_unregistered_cons (w : Watch.t) (ws : watch_l) (q : list InotifyEvent.t) :
  filter (fun e => negb (exists_loop (InotifyEvent.wd e) ws))
         (filter (fun e => negb (on_wd (Watch.wd w) e)) q) =
  filter (fun e => negb (exists_loop (InotifyEvent.wd e) (w :: ws))) q.
Proof.
  induction q as [|e q IH]; simpl; [reflexivity|].
  unfold on_wd at 1. rewrite (Z.eqb_sym (Watch.wd w)).
  destruct (InotifyEvent.wd e =? Watch.wd w); simpl; [exact IH|].
  rewrite IH. reflexivity.
Qed.

Lemma filter_registered_cons (w : Watch.t) (ws : watch_l) (q : list InotifyEvent.t) :
  Permutation
    (filter (on_wd (Watch.wd w)) q ++
     filter (fun e => exists_loop (InotifyEvent.wd e) ws)
            (filter (fun e => negb (on_wd (Watch.wd w) e)) q))
    (filter (fun e => exists_loop (InotifyEvent.wd e) (w :: ws)) q).
Proof.
  induction q as [|e q IH]; [constructor|].
  cbn [filter].
  replace (exists_loop (InotifyEvent.wd e) (w :: ws))
    with (on_wd (Watch.wd w) e || exists_loop (InotifyEvent.wd e) ws)
    by (unfold on_wd; simpl; rewrite Z.eqb_sym;
        destruct (Watch.wd w =? InotifyEvent.wd e); reflexivity).
  destruct (on_wd (Watch.wd w) e); cbn [negb orb filter app].
  - constructor. exact IH.
  - destruct (exists_loop (InotifyEvent.wd e) ws).
    + apply Permutation_sym, Permutation_cons_app, Permutation_sym. exact IH.
    + exact IH.
Qed.

(** What [poll()] does to events that were queued before the call does not
    depend on the events it reads, and conversely. *)
Lemma poll_loop_frame (ws : watch_l) :
  forall (reads : list sink_read) (qold : list InotifyEvent.t)
         (st st' : Inotify) (tr : list dispatch),
    poll_loop reads ws true (set_event_queue (qold ++ _event_queue st) st)
      = Ok (true, st', tr) ->
    exists st0' tr0,
      poll_loop reads ws true st = Ok (true, st0', tr0) /\
      st' = set_event_queue
              (filter (fun e => negb (exists_loop (InotifyEvent.wd e) ws)) qold
               ++ _event_queue st0') st0' /\
      Permutation (dispatched tr)
        (filter (fun e => exists_loop (InotifyEvent.wd e) ws) qold ++ dispatched tr0).
Proof.
  induction ws as [|w ws IH]; intros reads qold st st' tr.
  - simpl. intros H. inversion H; subst. exists st, []. split; [reflexivity|]. split.
    + rewrite filter_all by reflexivity. reflexivity.
    + rewrite filter_none by reflexivity. constructor.
  - cbn [poll_loop]. unfold poll_wd. rewrite pollFd_prefix.
    destruct (pollFd (hd no_data reads) st) as [[ok st1]|]; cbn [bind fst snd];
      [|discriminate].
    destruct ok; cbn [negb bind].
    2:{ rewrite poll_loop_failed. cbn [bind]. discriminate. }
    rewrite !poll_wd_loop_spec.
    change (_sigs (set_event_queue (qold ++ _event_queue st1) st1)) with (_sigs st1).
    change (_event_queue (set_event_queue (qold ++ _event_queue st1) st1))
      with (qold ++ _event_queue st1).
    rewrite !filter_app, map_app. cbn [bind].
    set (g := fun e => (e, filter (triggers (Watch.wd w) (InotifyEvent.mask e)) (_sigs st1))).
    set (stx := set_event_queue
                  (filter (fun e => negb (on_wd (Watch.wd w) e)) (_event_queue st1)) st1).
    match goal with
    | |- context [poll_loop (tl reads) ws true (set_event_queue (?A ++ _) ?S)] =>
        change (set_event_queue (A ++ _) S)
          with (set_event_queue (A ++ _event_queue stx) stx)
    end.
    destruct (poll_loop (tl reads) ws true
                (set_event_queue
                   (filter (fun e => negb (on_wd (Watch.wd w) e)) qold ++ _event_queue stx)
                   stx))
      as [[[res st2] tr2]|] eqn:P; cbn [bind]; [|discriminate].
    intros H. inversion H; subst res st2 tr. clear H.
    destruct (IH _ _ _ _ _ P) as (st0' & tr0 & P0 & Hst & Hperm).
    rewrite P0. cbn [bind].
    exists st0', (map g (filter (on_wd (Watch.wd w)) (_event_queue st1)) ++ tr0).
    split; [reflexivity|]. split.
    + rewrite Hst, filter_unregistered_cons. reflexivity.
    + unfold dispatched in *. rewrite !map_app.
      fold (dispatched (map g (filter (on_wd (Watch.wd w)) qold))).
      fold (dispatched (map g (filter (on_wd (Watch.wd w)) (_event_queue st1)))).
      unfold g. rewrite !dispatched_map.
      etransitivity.
      { rewrite <- app_assoc. do 2 apply Permutation_app_head. exact Hperm. }
      etransitivity.
      2:{ apply Permutation_app_tail. apply filter_registered_cons. }
      rewrite <- !app_assoc. apply Permutation_app_head.
      apply Permutation_app_swap_app.
Qed.

Lemma poll_loop_nothing_read (ws : watch_l) :
  forall (reads : list sink_read) (success : bool) (st : Inotify)
         (res : bool) (st2 : Inotify) (tr : list dispatch),
    Forall (fun r => delivered r = None) reads ->
    _event_queue st = [] ->
    poll_loop reads ws success st = Ok (res, st2, tr) ->
    _event_queue st2 = [] /\ tr = [].
Proof.
  induction ws as [|w ws IH]; intros reads success st res st2 tr Hr Hq; cbn [poll_loop].
  - intros H. inversion H; subst. auto.
  - destruct success; [|apply IH; assumption].
    assert (Hd : delivered (hd no_data reads) = None)
      by (destruct Hr; [reflexivity | assumption]).
    assert (Ht : Forall (fun r => delivered r = None) (tl reads))
      by (destruct Hr; [constructor | assumption]).
    unfold poll_wd, pollFd. rewrite Hd. cbn [bind].
    assert (E : exists ok, match code (hd no_data reads) with
                           | OTHER _ => Ok (false, st)
                           | _ => Ok (true, st)
                           end = Ok (ok, st))
      by (destruct (code (hd no_data reads)); eexists; reflexivity).
    destruct E as [ok ->]. cbn [bind].
    destruct ok; cbn [negb bind].
    + rewrite Hq. cbn [poll_wd_loop bind].
      destruct (poll_loop (tl reads) ws true (set_event_queue [] st))
        as [[[res' st'] tr']|] eqn:P; cbn [bind]; [|discriminate].
      intros H. inversion H; subst.
      destruct (IH _ _ (set_event_queue [] st) _ _ _ Ht eq_refl P) as [Hq' ->]. auto.
    + rewrite poll_loop_failed. cbn [bind]. intros H. inversion H; subst. auto.
Qed.

Lemma pollFd_quiet (r : sink_read) (st : Inotify) :
  quiet r -> pollFd r st = Ok (true, st).
Proof.
  intros [Hd Hc]. unfold pollFd. rewrite Hd. simpl.
  destruct Hc as [-> | ->]; reflexivity.
Qed.

(** With nothing to read, [poll()] returns true, goes once through each
    queued event of a registered descriptor and leaves the other events. *)
Lemma poll_loop_quiet (ws : watch_l) :
  forall (reads : list sink_read) (st : Inotify),
    Forall quiet reads ->
    exists tr,
      poll_loop reads ws true st =
        Ok (true,
            set_event_queue
              (filter (fun e => negb (exists_loop (InotifyEvent.wd e) ws))
                      (_event_queue st)) st,
            tr) /\
      Permutation (dispatched tr)
        (filter (fun e => exists_loop (InotifyEvent.wd e) ws) (_event_queue st)).
Proof.
  induction ws as [|w ws IH]; intros reads st Hq; cbn [poll_loop].
  - exists []. split.
    + rewrite filter_all by reflexivity. destruct st; reflexivity.
    + rewrite filter_none by reflexivity. constructor.
  - assert (Hh : quiet (hd no_data reads)).
    { destruct Hq; [|assumption]. split; [reflexivity | right; reflexivity]. }
    assert (Ht : Forall quiet (tl reads)) by (destruct Hq; [constructor | assumption]).
    unfold poll_wd. rewrite (pollFd_quiet _ _ Hh). cbn [bind negb].
    rewrite poll_wd_loop_spec. cbn [bind].
    set (stx := set_event_queue
                  (filter (fun e => negb (on_wd (Watch.wd w) e)) (_event_queue st)) st).
    destruct (IH (tl reads) stx Ht) as (tr' & P & Hperm).
    rewrite P. cbn [bind]. eexists. split.
    + rewrite <- filter_unregistered_cons. reflexivity.
    + unfold dispatched. rewrite map_app.
      fold (dispatched tr'). rewrite (dispatched_map _ _ : map fst _ = _).
      etransitivity; [apply Permutation_app_head; exact Hperm|].
      apply filter_registered_cons.
Qed.

(** C5, counterexample: the queue holds an event of descriptor 9 while the
    registry holds the watch of descriptor 5 alone.  [poll()] succeeds,
    dispatches nothing, and the event is still queued afterwards. *)
Lemma poll_leaves_unregistered_event :
  In ev_other (_event_queue st_stray) /\
  poll [no_data] st_stray = Ok (true, st_stray, []) /\
  ~ (exists st' tr, poll [no_data] st_stray = Ok (true, st', tr) /\
                    ~ In ev_other (_event_queue st')).
Proof.
  split; [left; reflexivity|]. split; [reflexivity|].
  intros (st' & tr & H & Hn). vm_compute in H. inversion H; subst st'.
  apply Hn. left. reflexivity.
Qed.

(** C5, amended: after a successful [poll()], the events that were in the
    internal queue when it was called and whose descriptor is that of a
    registered watch have each gone through one dispatch, whether or not a
    binding matched, and have left the queue; the queued events of other
    descriptors are still queued, in their order.  Precisely: the call run
    on an empty queue with the same reads succeeds too, with some
    dispatches [tr0] and a final queue [q0] that come from the data read
    during the call; the final queue is the queued events of unregistered
    descriptors followed by [q0], and the dispatched events are, up to
    their order, the queued events of registered descriptors together with
    those of [tr0].  When no read hands data over, [tr0] and [q0] are
    empty. *)
Theorem poll_dispatches_registered (reads : list sink_read) (st st' : Inotify)
  (tr : list dispatch) :
  poll reads st = Ok (true, st', tr) ->
  exists st0' tr0,
    poll reads (set_event_queue [] st) = Ok (true, st0', tr0) /\
    _event_queue st' =
      filter (fun e => negb (exists_ (InotifyEvent.wd e) st)) (_event_queue st)
      ++ _event_queue st0' /\
    Permutation (dispatched tr)
      (filter (fun e => exists_ (InotifyEvent.wd e) st) (_event_queue st)
       ++ dispatched tr0) /\
    (Forall (fun r => delivered r = None) reads ->
     _event_queue st0' = [] /\ tr0 = []).
Proof.
  unfold poll. intros H.
  assert (E : st = set_event_queue
                     (_event_queue st ++ _event_queue (set_event_queue [] st))
                     (set_event_queue [] st)).
  { destruct st. unfold set_event_queue. simpl. rewrite app_nil_r. reflexivity. }
  rewrite E in H at 2.
  change (_watches st) with (_watches (set_event_queue [] st)) in H.
  destruct (poll_loop_frame _ _ _ _ _ _ H) as (st0' & tr0 & P0 & Hst & Hperm).
  exists st0', tr0.
  split; [exact P0|].
  split; [rewrite Hst; reflexivity|].
  split; [exact Hperm|].
  intros Hr.
  exact (poll_loop_nothing_read _ _ _ (set_event_queue [] st) _ _ _ Hr eq_refl P0).
Qed.

(** Witness of [poll_dispatches_registered]: one queued event of the
    registered descriptor, no binding, nothing to read. *)
Lemma poll_dispatches_registered_witness :
  poll [no_data] st_queued = Ok (true, set_event_queue [] st_queued, [(ev_create_delete, [])]) /\
  exists st0' tr0,
    poll [no_data] (set_event_queue [] st_queued) = Ok (true, st0', tr0) /\
    _event_queue (set_event_queue [] st_queued) =
      filter (fun e => negb (exists_ (InotifyEvent.wd e) st_queued)) (_event_queue st_queued)
      ++ _event_queue st0' /\
    Permutation (dispatched [(ev_create_delete, [])])
      (filter (fun e => exists_ (InotifyEvent.wd e) st_queued) (_event_queue st_queued)
       ++ dispatched tr0) /\
    (Forall (fun r => delivered r = None) [no_data] ->
     _event_queue st0' = [] /\ tr0 = []).
Proof.
  split; [reflexivity|].
  apply (poll_dispatches_registered [no_data] st_queued
           (set_event_queue [] st_queued) [(ev_create_delete, [])]).
  reflexivity.
Defined.

(** ** Invariants of the object *)

Ltac unfold_invariants :=
  unfold consistent, registry_ok, handlers_ok, bindings_registered, sentinel_free in *.

Lemma update_watch_loop_wds (wd mask : Z) (ws : watch_l) :
  map Watch.wd (snd (update_watch_loop wd mask ws)) = map Watch.wd ws.
Proof.
  induction ws as [|w ws IH]; simpl; [reflexivity|].
  destruct (Watch.wd w =? wd); simpl; [reflexivity|].
  destruct (update_watch_loop wd mask ws) as [r rest]. simpl in *.
  rewrite IH. reflexivity.
Qed.

Lemma add_watch_frame (kernel_wd : Z) (path : string) (mask : Z) (st : Inotify) :
  let st' := snd (add_watch kernel_wd path mask st) in
  _sigs st' = _sigs st /\
  (map Watch.wd (_watches st') = map Watch.wd (_watches st) \/
   kernel_wd <> -1 /\
   map Watch.wd (_watches st') = map Watch.wd (_watches st) ++ [kernel_wd]).
Proof.
  unfold add_watch, update_watch. destruct (exists_ kernel_wd st).
  - pose proof (update_watch_loop_wds kernel_wd mask (_watches st)) as E.
    destruct (update_watch_loop kernel_wd mask (_watches st)) as [r ws]. simpl in *.
    auto.
  - destruct (Z.eqb_spec kernel_wd (-1)) as [E|E]; simpl; [auto|].
    split; [reflexivity|]. right. rewrite map_app. auto.
Qed.

Lemma rm_watch_loop_split (kernel_rm wd : Z) (ws : watch_l) :
  snd (rm_watch_loop kernel_rm wd ws) = ws /\ ~ In wd (map Watch.wd ws) \/
  exists l1 w l2,
    ws = l1 ++ w :: l2 /\ Watch.wd w = wd /\
    snd (rm_watch_loop kernel_rm wd ws) = l1 ++ l2.
Proof.
  induction ws as [|w ws IH]; simpl; [left; tauto|].
  destruct (Z.eqb_spec (Watch.wd w) wd) as [E|E]; simpl.
  - right. exists [], w, ws. auto.
  - destruct (rm_watch_loop kernel_rm wd ws) as [r rest]. simpl in *.
    destruct IH as [[-> Hn]|(l1 & x & l2 & -> & Hx & ->)].
    + left. split; [reflexivity|]. intros [H|H]; auto.
    + right. exists (w :: l1), x, l2. auto.
Qed.

Lemma NoDup_map_remove {A B : Type} (g : A -> B) (l1 l2 : list A) (x : A) :
  NoDup (map g (l1 ++ x :: l2)) -> NoDup (map g (l1 ++ l2)).
Proof.
  rewrite !map_app. simpl. apply NoDup_remove_1.
Qed.

Lemma detach_wd_defined (wd : Z) (st : Inotify) (r : bool) (st' : Inotify) :
  detach_wd wd st = Ok (r, st') ->
  r = false /\ st' = st /\ forall s, In s (_sigs st) -> sig_info.wd s <> wd.
Proof.
  rewrite detach_wd_spec.
  destruct (existsb (fun s => sig_info.wd s =? wd) (_sigs st)) eqn:X; [discriminate|].
  intros H. inversion H; subst. repeat split.
  intros s Hs E.
  assert (existsb (fun s => sig_info.wd s =? wd) (_sigs st') = true); [|congruence].
  apply existsb_exists. exists s. split; [exact Hs | apply Z.eqb_eq; exact E].
Qed.

(** Removing the entry of [x] from a consistent object to which no handler
    of [x] is bound. *)
Lemma consistent_remove (st : Inotify) (l1 l2 : list Watch.t) (x : Watch.t) :
  consistent st ->
  _watches st = l1 ++ x :: l2 ->
  (forall s, In s (_sigs st) -> sig_info.wd s <> Watch.wd x) ->
  consistent (set_watches (l1 ++ l2) st).
Proof.
  unfold_invariants.
  intros (R & H & B & S) E Hx. simpl. rewrite E in *.
  split; [eapply NoDup_map_remove; exact R|].
  split; [exact H|].
  split.
  - intros s Hs. specialize (B s Hs). specialize (Hx s Hs).
    rewrite map_app in *. simpl in B. apply in_app_or in B. apply in_or_app.
    destruct B as [B|[B|B]]; auto. congruence.
  - intros Hin. apply S. rewrite map_app in *. simpl.
    apply in_app_or in Hin. apply in_or_app. simpl. tauto.
Qed.

Lemma poll_wd_frame (r : sink_read) (wd : Z) (st : Inotify) (ok : bool)
  (st' : Inotify) (tr : list dispatch) :
  poll_wd r wd st = Ok (ok, st', tr) ->
  _sigs st' = _sigs st /\ _watches st' = _watches st.
Proof.
  unfold poll_wd. destruct (pollFd r st) as [[b st1]|] eqn:P; simpl; [|discriminate].
  apply pollFd_frame in P.
  destruct b; simpl.
  - destruct (poll_wd_loop wd (_sigs st1) (_event_queue st1)) as [t q].
    intros H. inversion H; subst. exact P.
  - intros H. inversion H; subst. exact P.
Qed.

Lemma poll_loop_keeps (ws : watch_l) :
  forall (reads : list sink_read) (success : bool) (st : Inotify)
         (res : bool) (st' : Inotify) (tr : list dispatch),
    poll_loop reads ws success st = Ok (res, st', tr) ->
    _sigs st' = _sigs st /\ _watches st' = _watches st.
Proof.
  induction ws as [|w ws IH]; intros reads success st res st' tr; cbn [poll_loop].
  - intros H. inversion H; subst. auto.
  - destruct success; [|apply IH].
    destruct (poll_wd (hd no_data reads) (Watch.wd w) st) as [[[ok st1] tr1]|] eqn:P;
      cbn [bind]; [|discriminate].
    destruct (poll_loop (tl reads) ws ok st1) as [[[res2 st2] tr2]|] eqn:L;
      cbn [bind]; [|discriminate].
    intros H. inversion H; subst.
    apply poll_wd_frame in P. apply IH in L.
    destruct P as [P1 P2], L as [L1 L2]. split; congruence.
Qed.

Lemma poll_queue_frame (r : sink_read) (out : list InotifyEvent.t) (st : Inotify)
  (ok : bool) (st' : Inotify) (out' : list InotifyEvent.t) :
  poll_queue r out st = Ok (ok, st', out') ->
  _sigs st' = _sigs st /\ _watches st' = _watches st.
Proof.
  unfold poll_queue. destruct (pollFd r st) as [[b st1]|] eqn:P; simpl; [|discriminate].
  apply pollFd_frame in P.
  destruct b; simpl.
  - destruct (_event_queue st1); intros H; inversion H; subst; exact P.
  - intros H. inversion H; subst. exact P.
Qed.

Lemma consistent_frame (st st' : Inotify) :
  _sigs st' = _sigs st -> _watches st' = _watches st ->
  consistent st -> consistent st'.
Proof.
  unfold_invariants.
  intros -> ->. tauto.
Qed.

Lemma detach_loop_split (wd mask : Z) (sigs : signal_l) :
  snd (detach_loop wd mask sigs) = sigs \/
  exists l1 b l2, sigs = l1 ++ b :: l2 /\ snd (detach_loop wd mask sigs) = l1 ++ l2.
Proof.
  destruct (sig_exists_loop wd mask sigs) eqn:SE.
  - right. destruct (detach_loop_found _ _ _ SE) as (l1 & b & l2 & E & _ & _ & D).
    exists l1, b, l2. rewrite D. auto.
  - left. rewrite (detach_loop_absent _ _ _ SE). reflexivity.
Qed.

Lemma detach_consistent (wd mask : Z) (st : Inotify) :
  consistent st -> consistent (snd (detach wd mask st)).
Proof.
  unfold detach.
  pose proof (detach_loop_split wd mask (_sigs st)) as D.
  destruct (detach_loop wd mask (_sigs st)) as [r sigs]. simpl in *.
  destruct D as [->|(l1 & b & l2 & E & ->)].
  - apply consistent_frame; reflexivity.
  - unfold_invariants.
    simpl. rewrite E. intros (R & H & B & S).
    split; [exact R|]. split; [eapply NoDup_map_remove; exact H|].
    split; [|exact S].
    intros s Hs. apply B. apply in_app_or in Hs. apply in_or_app. simpl. tauto.
Qed.

Lemma attach_consistent (wd mask : Z) (f : callable) (st : Inotify) :
  consistent st -> consistent (snd (attach wd mask f st)).
Proof.
  intros C. pose proof (attach_handlers_ok wd mask f st (proj1 (proj2 C))) as H2.
  revert H2. unfold attach.
  destruct (exists_ wd st) eqn:Ex; simpl; [|intros _; exact C].
  assert (C1 : consistent (if sig_exists wd mask st then snd (detach wd mask st) else st))
    by (destruct (sig_exists wd mask st); [apply detach_consistent|]; exact C).
  assert (W1 : _watches (if sig_exists wd mask st then snd (detach wd mask st) else st)
               = _watches st).
  { destruct (sig_exists wd mask st); [|reflexivity].
    unfold detach. destruct (detach_loop wd mask (_sigs st)). reflexivity. }
  destruct (Signal_attach f) as [sg|]; simpl; [|intros _; exact C1].
  destruct C1 as (R & _ & B & S). intros H2.
  unfold_invariants.
  simpl. split; [exact R|]. split; [exact H2|]. split; [|exact S].
  intros s Hs. apply in_app_or in Hs. destruct Hs as [Hs|[<-|[]]]; [apply B; exact Hs|].
  simpl. rewrite W1. apply exists_loop_In. exact Ex.
Qed.

Lemma add_watch_consistent (kernel_wd : Z) (path : string) (mask : Z) (st : Inotify) :
  consistent st -> consistent (snd (add_watch kernel_wd path mask st)).
Proof.
  intros (R & H & B & S).
  pose proof (add_watch_registry_ok kernel_wd path mask st R) as R'.
  destruct (add_watch_frame kernel_wd path mask st) as [Es Ew].
  unfold consistent, handlers_ok, bindings_registered, sentinel_free in *.
  split; [exact R'|]. rewrite Es. split; [exact H|].
  destruct Ew as [->|[Hk ->]].
  - auto.
  - split.
    + intros s Hs. apply in_or_app. left. apply B. exact Hs.
    + intros Hin. apply in_app_or in Hin. destruct Hin as [Hin|[Hin|[]]]; auto.
Qed.

Lemma run_consistent (c : call) (st st' : Inotify) :
  consistent st -> run c st = Ok st' -> consistent st'.
Proof.
  intros C. destruct c; simpl.
  - intros H. inversion H; subst. apply add_watch_consistent. exact C.
  - unfold rm_watch.
    pose proof (rm_watch_loop_split kernel_rm wd (_watches st)) as Sp.
    destruct (rm_watch_loop kernel_rm wd (_watches st)) as [r ws]. simpl in Sp.
    destruct (detach_wd wd (set_watches ws st)) as [[b st1]|] eqn:D; simpl; [|discriminate].
    intros H. inversion H; subst st'. clear H.
    apply detach_wd_defined in D. destruct D as (_ & -> & Hn).
    destruct Sp as [[-> _]|(l1 & x & l2 & E & Hx & ->)].
    + apply (consistent_frame st); [reflexivity | reflexivity | exact C].
    + apply (consistent_remove st l1 l2 x C E). rewrite Hx. exact Hn.
  - unfold rm_watch_path.
    destruct (find (fun w => String.eqb (Watch.path w) path) (_watches st)) as [w|] eqn:F.
    + destruct (rm_watch_path_loop_found kernel_rm path _ w F)
        as (l1 & l2 & E & _ & _ & ->).
      destruct (detach_wd (Watch.wd w) (set_watches (l1 ++ l2) st)) as [[b st1]|] eqn:D;
        simpl; [|discriminate].
      intros H. inversion H; subst st'. clear H.
      apply detach_wd_defined in D. destruct D as (_ & -> & Hn).
      exact (consistent_remove st l1 l2 w C E Hn).
    + rewrite (rm_watch_path_loop_absent kernel_rm path _ F).
      destruct (detach_wd (-1) (set_watches (_watches st) st)) as [[b st1]|] eqn:D;
        simpl; [|discriminate].
      intros H. inversion H; subst st'. clear H.
      apply detach_wd_defined in D. destruct D as (_ & -> & _).
      apply (consistent_frame st); [reflexivity | reflexivity | exact C].
  - intros H. inversion H; subst. apply attach_consistent. exact C.
  - intros H. inversion H; subst. apply detach_consistent. exact C.
  - destruct (detach_wd wd st) as [[b st1]|] eqn:D; simpl; [|discriminate].
    intros H. inversion H; subst st'. apply detach_wd_defined in D.
    destruct D as (_ & -> & _). exact C.
  - destruct (poll reads st) as [[[b st1] tr]|] eqn:P; simpl; [|discriminate].
    intros H. inversion H; subst st'. apply poll_loop_keeps in P.
    destruct P as [Es Ew]. exact (consistent_frame st st1 Es Ew C).
  - destruct (poll_wd r wd st) as [[[b st1] tr]|] eqn:P; simpl; [|discriminate].
    intros H. inversion H; subst st'. apply poll_wd_frame in P.
    destruct P as [Es Ew]. exact (consistent_frame st st1 Es Ew C).
  - destruct (poll_queue r _queue st) as [[[b st1] q]|] eqn:P; simpl; [|discriminate].
    intros H. inversion H; subst st'. apply poll_queue_frame in P.
    destruct P as [Es Ew]. exact (consistent_frame st st1 Es Ew C).
Qed.

(** Every object that calls with defined results lead to has pairwise
    distinct descriptors, at most one binding per (descriptor, mask) pair,
    no binding of an unregistered descriptor and no watch of descriptor
    [-1]. *)
Lemma reachable_consistent (st : Inotify) : reachable st -> consistent st.
Proof.
  induction 1 as [|c st st' _ IH Hrun].
  - unfold_invariants.
    simpl. repeat split; try constructor; tauto.
  - exact (run_consistent c st st' IH Hrun).
Qed.

(** On an object reached by calls, [rm_watch(path)] for a path that has no
    watch returns 0 and changes nothing. *)
Lemma rm_watch_path_unknown (kernel_rm : Z) (p : string) (st : Inotify) :
  reachable st ->
  (forall w, In w (_watches st) -> Watch.path w <> p) ->
  rm_watch_path kernel_rm p st = Ok (0, st).
Proof.
  intros Hr Hp. apply reachable_consistent in Hr. destruct Hr as (_ & _ & B & S).
  assert (F : find (fun w => String.eqb (Watch.path w) p) (_watches st) = None).
  { destruct (find _ (_watches st)) as [w|] eqn:F; [|reflexivity].
    apply find_some in F. destruct F as [Hin E]. apply String.eqb_eq in E.
    elim (Hp w Hin E). }
  unfold rm_watch_path. rewrite (rm_watch_path_loop_absent kernel_rm p _ F).
  cbv beta iota. rewrite detach_wd_spec. simpl.
  destruct (existsb (fun s => sig_info.wd s =? -1) (_sigs st)) eqn:X.
  - apply existsb_exists in X. destruct X as (s & Hs & E). apply Z.eqb_eq in E.
    elim S. rewrite <- E. apply B. exact Hs.
  - destruct st; reflexivity.
Qed.

(** ** The example objects arise from calls *)

Example st_watch_reachable : reachable st_watch.
Proof.
  apply (reachable_run
           (call_add_watch 5 "/tmp/a"%string (Z.lor IN_CREATE IN_DELETE)) Inotify_init).
  - apply reachable_init.
  - reflexivity.
Qed.

Example st_bound_reachable : reachable st_bound.
Proof.
  apply (reachable_run (call_attach 5 IN_CREATE (func 1)) st_watch).
  - apply st_watch_reachable.
  - reflexivity.
Qed.

(** A directed poll of another descriptor reads the record and leaves its
    event queued. *)
Example st_queued_reachable : reachable st_queued.
Proof.
  apply (reachable_run
           (call_poll_wd (mk_sink_read (Some record_create_delete) SUCCESS) 9) st_watch).
  - apply st_watch_reachable.
  - reflexivity.
Qed.

Example st_overlap_reachable : reachable st_overlap.
Proof.
  apply (reachable_run
           (call_attach 5 (Z.lor IN_CREATE IN_DELETE) (func 2))
           (mkInotify [ev_create_delete] [bind_create] [watch_a])); [|reflexivity].
  apply (reachable_run (call_attach 5 IN_CREATE (func 1)) st_queued); [|reflexivity].
  apply st_queued_reachable.
Qed.

(** A watch of descriptor 9 is added, an event of it is read by a directed
    poll of descriptor 5, and the watch is removed. *)
Example st_stray_reachable : reachable st_stray.
Proof.
  apply (reachable_run (call_rm_watch 0 9)
           (mkInotify [ev_other] [] [watch_a; Watch.make IN_CREATE "/tmp/b"%string 9]));
    [|reflexivity].
  apply (reachable_run (call_poll_wd (mk_sink_read (Some record_other) SUCCESS) 5)
           (mkInotify [] [] [watch_a; Watch.make IN_CREATE "/tmp/b"%string 9]));
    [|reflexivity].
  apply (reachable_run (call_add_watch 9 "/tmp/b"%string IN_CREATE) st_watch);
    [|reflexivity].
  apply st_watch_reachable.
Qed.

(** ** The wire format: decoding what the kernel encodes *)

Lemma byte_val_byte_of (z : Z) : byte_val (byte_of z) = z mod 256.
Proof.
  unfold byte_val, byte_of.
  assert (B : 0 <= z mod 256 < 256) by (apply Z.mod_pos_bound; lia).
  destruct (Byte.of_N (Z.to_N (z mod 256))) as [b|] eqn:E.
  - apply Byte.to_of_N in E. rewrite E. apply Z2N.id. lia.
  - apply Byte.of_N_None_iff in E. lia.
Qed.

Lemma lor_disjoint (a c n : Z) :
  0 <= n -> 0 <= a < 2 ^ n -> c mod 2 ^ n = 0 -> Z.lor a c = a + c.
Proof.
  intros Hn Ha Hc.
  assert (L : Z.land a c = 0).
  { apply Z.bits_inj'. intros m Hm. rewrite Z.land_spec, Z.bits_0.
    destruct (Z.lt_ge_cases m n) as [Hlt|Hge].
    - assert (P : 0 < 2 ^ n) by (apply Z.pow_pos_nonneg; lia).
      pose proof (Z.div_mod c (2 ^ n) ltac:(lia)) as D.
      replace c with (c / 2 ^ n * 2 ^ n) by lia.
      rewrite Z.mul_pow2_bits_low by lia. apply andb_false_r.
    - rewrite <- (Z.mod_small a (2 ^ n)) by lia.
      rewrite Z.mod_pow2_bits_high by lia. reflexivity. }
  rewrite <- Z.lxor_lor by exact L. symmetry. apply Z.add_nocarry_lxor. exact L.
Qed.

Lemma uint32_at_encode (z : Z) (rest : list byte) :
  0 <= z < 2 ^ 32 -> uint32_at 0 (encode_uint32 z ++ rest) = Some z.
Proof.
  intros Hz. change (2 ^ 32) with 4294967296 in Hz.
  unfold uint32_at, encode_uint32. simpl skipn. cbn [app].
  rewrite !byte_val_byte_of, !Z.shiftl_mul_pow2 by lia.
  set (m0 := z mod 256). set (m1 := (z / 256) mod 256).
  set (m2 := (z / 256 / 256) mod 256). set (m3 := (z / 256 / 256 / 256) mod 256).
  assert (B : 0 <= m0 < 256 /\ 0 <= m1 < 256 /\ 0 <= m2 < 256 /\ 0 <= m3 < 256 /\
              z = m0 + 256 * m1 + 65536 * m2 + 16777216 * m3)
    by (unfold m0, m1, m2, m3; Z.div_mod_to_equations; lia).
  clearbody m0 m1 m2 m3.
  change (2 ^ 8) with 256. change (2 ^ 16) with 65536. change (2 ^ 24) with 16777216.
  f_equal.
  rewrite (lor_disjoint (m2 * 65536) (m3 * 16777216) 24);
    [|lia| change (2 ^ 24) with 16777216; lia
     | change (2 ^ 24) with 16777216; apply Z.mod_mul; lia].
  rewrite (lor_disjoint (m1 * 256) (m2 * 65536 + m3 * 16777216) 16);
    [|lia| change (2 ^ 16) with 65536; lia
     | change (2 ^ 16) with 65536; Z.div_mod_to_equations; lia].
  rewrite (lor_disjoint m0 (m1 * 256 + (m2 * 65536 + m3 * 16777216)) 8);
    [|lia| change (2 ^ 8) with 256; lia
     | change (2 ^ 8) with 256; Z.div_mod_to_equations; lia].
  lia.
Qed.

Lemma to_int32_to_uint32 (w : Z) :
  - 2 ^ 31 <= w < 2 ^ 31 -> to_int32 (to_uint32 w) = w /\ 0 <= to_uint32 w < 2 ^ 32.
Proof.
  unfold to_int32, to_uint32.
  change (2 ^ 31) with 2147483648. change (2 ^ 32) with 4294967296.
  intros H. Z.div_mod_to_equations. lia.
Qed.


Lemma uint32_at_skip (off : nat) (z : Z) (rest : list byte) :
  uint32_at (S (S (S (S off)))) (encode_uint32 z ++ rest) = uint32_at off rest.
Proof. reflexivity. Qed.

Lemma read_header_encode (e : InotifyEvent.t) (rest : list byte) :
  named_event e ->
  read_header (encode_record e ++ rest) =
  Some (inotify_event.make (InotifyEvent.wd e) (InotifyEvent.mask e)
          (InotifyEvent.cookie e) (InotifyEvent.len e)).
Proof.
  intros (Hw & Hm & Hc & Hl & _).
  destruct (to_int32_to_uint32 _ Hw) as [Ew Bw].
  unfold read_header, int32_at, encode_record. rewrite <- !app_assoc.
  rewrite (uint32_at_encode _ _ Bw).
  rewrite (uint32_at_skip 0), (uint32_at_encode _ _ Hm).
  rewrite (uint32_at_skip 4), (uint32_at_skip 0), (uint32_at_encode _ _ Hc).
  rewrite (uint32_at_skip 8), (uint32_at_skip 4), (uint32_at_skip 0),
    (uint32_at_encode _ _ Hl).
  cbn [option_map]. rewrite Ew. reflexivity.
Qed.

Lemma c_str_terminated (nm rest : list byte) :
  ~ In x00 nm -> c_str (nm ++ x00 :: rest) = Some nm.
Proof.
  induction nm as [|b nm IH]; intros Hn; [reflexivity|].
  cbn [app c_str].
  destruct (Byte.eqb b x00) eqn:E.
  - apply Byte.byte_dec_bl in E. elim Hn. left. exact E.
  - rewrite IH; [reflexivity|]. intros H. apply Hn. right. exact H.
Qed.

Lemma skipn_header (e : InotifyEvent.t) (rest : list byte) :
  skipn sizeof_inotify_event (encode_record e ++ rest) =
  (InotifyEvent.name e
   ++ repeat x00 (Z.to_nat (InotifyEvent.len e) - length (InotifyEvent.name e)))
  ++ rest.
Proof.
  unfold encode_record. rewrite <- !app_assoc. reflexivity.
Qed.

Lemma length_encode_record (e : InotifyEvent.t) :
  named_event e ->
  length (encode_record e) = (sizeof_inotify_event + Z.to_nat (InotifyEvent.len e))%nat.
Proof.
  intros (_ & _ & _ & Hl & Hn & _).
  unfold encode_record, encode_uint32, sizeof_inotify_event.
  rewrite !length_app, repeat_length. simpl length. lia.
Qed.

(** The constructor of [InotifyEvent] gives back the event whose record it
    is given. *)
Lemma InotifyEvent_of_encode (e : InotifyEvent.t) (rest : list byte) :
  named_event e -> InotifyEvent_of (encode_record e ++ rest) = Ok e.
Proof.
  intros Hwf. unfold InotifyEvent_of.
  rewrite (read_header_encode e rest Hwf), skipn_header.
  destruct Hwf as (_ & _ & _ & Hl & Hn & H0).
  destruct (Z.to_nat (InotifyEvent.len e) - length (InotifyEvent.name e))%nat
    as [|k] eqn:K; [lia|].
  cbn [repeat]. rewrite <- app_assoc. cbn [app].
  rewrite (c_str_terminated _ _ H0). destruct e; reflexivity.
Qed.

(** The loop goes through the records of well-formed events one after the
    other and comes to what follows them with their events queued. *)
Lemma update_queue_loop_records (evs : list InotifyEvent.t) :
  forall (rest : list byte) (queue : list InotifyEvent.t),
    Forall named_event evs ->
    update_queue_loop (encode_records evs ++ rest) queue =
    update_queue_loop rest (queue ++ evs).
Proof.
  induction evs as [|e evs IH]; intros rest queue Hwf.
  - simpl. rewrite app_nil_r. reflexivity.
  - inversion Hwf as [|? ? He Hevs]; subst.
    unfold encode_records. cbn [flat_map]. fold (encode_records evs).
    rewrite <- app_assoc.
    pose proof (length_encode_record e He) as Hlen.
    assert (Hpos : 0 < InotifyEvent.len e) by (destruct He as (_ & _ & _ & _ & ? & _); lia).
    rewrite update_queue_loop_step.
    destruct (encode_record e ++ encode_records evs ++ rest) as [|b p'] eqn:P.
    { apply (f_equal (@length _)) in P. rewrite length_app, Hlen in P.
      unfold sizeof_inotify_event in P. simpl in P. lia. }
    rewrite <- P.
    replace (Nat.leb (length (encode_record e ++ encode_records evs ++ rest))
               sizeof_inotify_event) with false.
    2:{ symmetry. apply Nat.leb_gt. rewrite length_app, Hlen. lia. }
    rewrite (InotifyEvent_of_encode e _ He).
    rewrite <- Hlen, skipn_app, Nat.sub_diag, skipn_all. cbn [app skipn].
    rewrite IH by exact Hevs. rewrite <- app_assoc. reflexivity.
Qed.

(** ** The broadcasting parser on the kernel's records *)

Lemma emit_loop_step (h : Broadcast.Event -> bool) (raw : list byte) (bytes off : nat)
  (raised : list Broadcast.Event) :
  Broadcast.emit_loop h raw bytes off raised =
  if lt_dec off bytes
  then
    match Broadcast.event_at raw off with
    | None => Undefined
    | Some (event, n) =>
        if h event
        then Broadcast.emit_loop h raw bytes (off + sizeof_inotify_event + n)
               (raised ++ [event])
        else Ok (false, raised ++ [event])
    end
  else Ok (true, raised).
Proof.
  simp emit_loop. destruct (lt_dec off bytes); simpl; [|reflexivity].
  destruct (Broadcast.event_at raw off) as [[event n]|]; simpl; [|reflexivity].
  destruct (h event); reflexivity.
Qed.

Lemma event_at_encode (pre rest : list byte) (e : InotifyEvent.t) :
  named_event e ->
  Broadcast.event_at (pre ++ encode_record e ++ rest) (length pre) =
  Some (broadcast_event e, Z.to_nat (InotifyEvent.len e)).
Proof.
  intros He. pose proof (length_encode_record e He) as Hlen.
  unfold Broadcast.event_at.
  rewrite skipn_app, skipn_all, Nat.sub_diag. cbn [app skipn].
  rewrite (read_header_encode e rest He). cbn [inotify_event.len].
  replace (Nat.leb (length pre + sizeof_inotify_event + Z.to_nat (InotifyEvent.len e))
             (length (pre ++ encode_record e ++ rest))) with true
    by (symmetry; apply Nat.leb_le; rewrite !length_app, Hlen; lia).
  f_equal. f_equal. unfold broadcast_event. cbn [inotify_event.wd inotify_event.mask
    inotify_event.cookie]. f_equal.
  rewrite skipn_app, skipn_all2 by lia.
  replace (length pre + sizeof_inotify_event - length pre)%nat
    with sizeof_inotify_event by lia.
  cbn [app]. rewrite skipn_header, firstn_app.
  destruct He as (_ & _ & _ & _ & Hn & _).
  set (field := InotifyEvent.name e
                ++ repeat x00 (Z.to_nat (InotifyEvent.len e)
                               - length (InotifyEvent.name e))).
  assert (Hf : length field = Z.to_nat (InotifyEvent.len e))
    by (unfold field; rewrite length_app, repeat_length; lia).
  rewrite Hf, Nat.sub_diag, firstn_O, app_nil_r.
  apply firstn_all2. lia.
Qed.

Lemma emit_loop_records (h : Broadcast.Event -> bool) (bytes : nat)
  (rest : list byte) (evs : list InotifyEvent.t) :
  forall (pre : list byte) (raised : list Broadcast.Event),
    Forall named_event evs ->
    Forall (fun e => h (broadcast_event e) = true) evs ->
    (length pre + length (encode_records evs) <= bytes)%nat ->
    Broadcast.emit_loop h (pre ++ encode_records evs ++ rest) bytes (length pre) raised =
    Broadcast.emit_loop h (pre ++ encode_records evs ++ rest) bytes
      (length pre + length (encode_records evs)) (raised ++ map broadcast_event evs).
Proof.
  induction evs as [|e evs IH]; intros pre raised Hwf Hacc Hb.
  - simpl. rewrite Nat.add_0_r, app_nil_r. reflexivity.
  - inversion Hwf as [|? ? He Hevs]; subst. inversion Hacc as [|? ? Ha Haccs]; subst.
    pose proof (length_encode_record e He) as Hlen.
    unfold encode_records in *. cbn [flat_map] in *. fold (encode_records evs) in *.
    rewrite length_app in Hb.
    rewrite emit_loop_step.
    destruct (lt_dec (length pre) bytes) as [_|Hn];
      [|unfold sizeof_inotify_event in Hlen; lia].
    rewrite <- (app_assoc (encode_record e)).
    rewrite (event_at_encode pre _ e He), Ha.
    replace (length pre + sizeof_inotify_event + Z.to_nat (InotifyEvent.len e))%nat
      with (length (pre ++ encode_record e)) by (rewrite length_app; lia).
    rewrite (app_assoc pre).
    rewrite IH by (try assumption; rewrite length_app; lia).
    rewrite !length_app, <- app_assoc. cbn [map app].
    f_equal; [lia | rewrite <- app_assoc; reflexivity].
Qed.

(** ** [mask2name] lemmas *)

Lemma string_append_assoc (a b c : String.string) :
  String.append (String.append a b) c = String.append a (String.append b c).
Proof.
  induction a as [|ch a IH]; simpl; [reflexivity|]. rewrite IH. reflexivity.
Qed.

Lemma string_append_empty_r (a : String.string) : String.append a ""%string = a.
Proof.
  induction a as [|ch a IH]; simpl; [reflexivity|]. rewrite IH. reflexivity.
Qed.

Lemma string_length_append (a b : String.string) :
  String.length (String.append a b) = (String.length a + String.length b)%nat.
Proof.
  induction a as [|ch a IH]; simpl; [reflexivity|]. rewrite IH. reflexivity.
Qed.

Lemma substring_prefix (a b : String.string) :
  String.substring 0 (String.length a) (String.append a b) = a.
Proof.
  induction a as [|ch a IH]; simpl.
  - destruct b; reflexivity.
  - rewrite IH. reflexivity.
Qed.

Lemma mask2name_loop_delimited (mask : Z) (m : list (Z * String.string))
  (output : String.string) :
  mask2name_loop mask m output =
  String.append output
    (delimited (map snd (filter (fun kv => negb (Z.land mask (fst kv) =? 0)) m))).
Proof.
  revert output. induction m as [|[k v] m IH]; intros output; simpl.
  - rewrite string_append_empty_r. reflexivity.
  - rewrite IH. destruct (Z.land mask k =? 0); simpl; [reflexivity|].
    rewrite string_append_assoc. reflexivity.
Qed.

Lemma delimited_concat (names : list String.string) :
  names <> [] ->
  delimited names = String.append (String.concat delimiter names) delimiter.
Proof.
  induction names as [|v names IH]; intros Hn; [contradiction|].
  destruct names as [|w names].
  - simpl. rewrite string_append_empty_r. reflexivity.
  - change (delimited (v :: w :: names))
      with (String.append (String.append v delimiter) (delimited (w :: names))).
    rewrite IH by discriminate.
    change (String.concat delimiter (v :: w :: names))
      with (String.append v (String.append delimiter (String.concat delimiter (w :: names)))).
    rewrite !string_append_assoc. reflexivity.
Qed.

(** ** Further properties: the parser of include/Inotify.h *)

Lemma ev_create_delete_named : named_event ev_create_delete.
Proof.
  unfold named_event. simpl. repeat split; try lia; try discriminate.
  intros H. repeat (destruct H as [H|H]; [discriminate|]). exact H.
Qed.

Lemma ev_other_named : named_event ev_other.
Proof.
  unfold named_event. simpl. repeat split; try lia; try discriminate.
  intros H. repeat (destruct H as [H|H]; [discriminate|]). exact H.
Qed.

Lemma update_queue_records (evs : list InotifyEvent.t) (tail : list byte) (st : Inotify) :
  Forall named_event evs ->
  update_queue (encode_records evs ++ tail) st =
  ('(r, q) <- update_queue_loop tail (_event_queue st ++ evs) ;;
   Ok (r, set_event_queue q st)).
Proof.
  intros Hwf. unfold update_queue. rewrite update_queue_loop_records by exact Hwf.
  reflexivity.
Qed.

(** X1: the records of events that carry a name, written one after the
    other as the kernel writes them, are parsed back into exactly these
    events: [update_queue] returns true and the events stand, in the order
    of their records, behind the events that were queued. *)
Theorem update_queue_round_trip (evs : list InotifyEvent.t) (st : Inotify) :
  Forall named_event evs ->
  update_queue (encode_records evs) st =
  Ok (true, set_event_queue (_event_queue st ++ evs) st).
Proof.
  intros Hwf. rewrite <- (app_nil_r (encode_records evs)).
  rewrite update_queue_records by exact Hwf.
  simp update_queue_loop. reflexivity.
Qed.

Lemma update_queue_round_trip_witness :
  Forall named_event [ev_create_delete; ev_other] /\
  update_queue (encode_records [ev_create_delete; ev_other]) st_queued =
  Ok (true, set_event_queue (_event_queue st_queued ++ [ev_create_delete; ev_other])
              st_queued).
Proof.
  assert (W : Forall named_event [ev_create_delete; ev_other])
    by (constructor; [apply ev_create_delete_named
                     | constructor; [apply ev_other_named | constructor]]).
  split; [exact W|].
  apply (update_queue_round_trip [ev_create_delete; ev_other] st_queued W).
Defined.

(** X2: when the records of events that carry a name are followed by 1 to
    16 more bytes (a header at most, whatever it holds), [update_queue]
    queues the events of the complete records, in order, drops the tail and
    returns false. *)
Theorem update_queue_short_tail (evs : list InotifyEvent.t) (tail : list byte)
  (st : Inotify) :
  Forall named_event evs ->
  (0 < length tail <= sizeof_inotify_event)%nat ->
  update_queue (encode_records evs ++ tail) st =
  Ok (false, set_event_queue (_event_queue st ++ evs) st).
Proof.
  intros Hwf Ht. rewrite update_queue_records by exact Hwf.
  rewrite update_queue_loop_header_only by exact Ht. reflexivity.
Qed.

Lemma update_queue_short_tail_witness :
  Forall named_event [ev_create_delete] /\
  (0 < length [x05; x00; x00] <= sizeof_inotify_event)%nat /\
  update_queue (encode_records [ev_create_delete] ++ [x05; x00; x00]) Inotify_init =
  Ok (false, set_event_queue (_event_queue Inotify_init ++ [ev_create_delete])
               Inotify_init).
Proof.
  assert (W : Forall named_event [ev_create_delete])
    by (constructor; [apply ev_create_delete_named | constructor]).
  assert (T : (0 < length [x05; x00; x00] <= sizeof_inotify_event)%nat)
    by (unfold sizeof_inotify_event; simpl; lia).
  split; [exact W|]. split; [exact T|].
  apply (update_queue_short_tail [ev_create_delete] [x05; x00; x00] Inotify_init W T).
Defined.

(** X3: [update_queue] never touches what is queued: when it returns, the
    queue is the old queue followed by the events it has parsed, and these
    events and the result are the ones it would give on an empty queue; the
    registry and the handler table are as before. *)
Theorem update_queue_appends (data : list byte) (st : Inotify) (r : bool) (st' : Inotify) :
  update_queue data st = Ok (r, st') ->
  exists new,
    _event_queue st' = _event_queue st ++ new /\
    update_queue data (set_event_queue [] st) = Ok (r, set_event_queue new st) /\
    _sigs st' = _sigs st /\ _watches st' = _watches st.
Proof.
  unfold update_queue. cbn [_event_queue set_event_queue].
  rewrite <- (app_nil_r (_event_queue st)) at 1.
  rewrite update_queue_loop_prefix.
  destruct (update_queue_loop data []) as [[b new]|]; cbn [bind fst snd]; [|discriminate].
  intros H. inversion H; subst. exists new. repeat split.
Qed.

Lemma update_queue_appends_witness :
  update_queue record_other st_queued =
    Ok (true, set_event_queue [ev_create_delete; ev_other] st_queued) /\
  exists new,
    _event_queue (set_event_queue [ev_create_delete; ev_other] st_queued)
      = _event_queue st_queued ++ new /\
    update_queue record_other (set_event_queue [] st_queued)
      = Ok (true, set_event_queue new st_queued) /\
    _sigs (set_event_queue [ev_create_delete; ev_other] st_queued) = _sigs st_queued /\
    _watches (set_event_queue [ev_create_delete; ev_other] st_queued)
      = _watches st_queued.
Proof.
  split; [reflexivity|].
  apply (update_queue_appends record_other st_queued true
           (set_event_queue [ev_create_delete; ev_other] st_queued)).
  reflexivity.
Defined.

(** ** Further properties: the wrapper of src/Inotify.cpp *)

(** X4: when the buffer starts with the records of events that carry a
    name, [bytes] is their size, a handler is connected, the read did not
    fail and the handler accepts every event, [_emit_data] raises one event
    per record, in the order of the records, and returns true; the name of a
    raised event is the whole name field, its NUL padding included. *)
Theorem emit_data_round_trip (h : Broadcast.Event -> bool) (evs : list InotifyEvent.t)
  (slack : list byte) (nbytes : Z) :
  Forall named_event evs ->
  Forall (fun e => h (broadcast_event e) = true) evs ->
  0 <= nbytes ->
  Broadcast._emit_data true h nbytes (encode_records evs ++ slack)
    (Z.of_nat (length (encode_records evs)))
  = Ok (true, map broadcast_event evs).
Proof.
  intros Hwf Hacc Hn. unfold Broadcast._emit_data.
  replace (nbytes <? 0) with false by (symmetry; apply Z.ltb_ge; exact Hn).
  rewrite Nat2Z.id.
  pose proof (emit_loop_records h (length (encode_records evs)) slack evs [] []
                Hwf Hacc (Nat.le_refl _)) as E.
  cbn [app length Nat.add] in E. rewrite E, emit_loop_step.
  destruct (lt_dec _ _) as [Hlt|_]; [lia | reflexivity].
Qed.

Lemma emit_data_round_trip_witness :
  Forall named_event [ev_create_delete; ev_other] /\
  Forall (fun e => (fun _ : Broadcast.Event => true) (broadcast_event e) = true)
         [ev_create_delete; ev_other] /\
  0 <= 64 /\
  Broadcast._emit_data true (fun _ => true) 64
    (encode_records [ev_create_delete; ev_other] ++ [x00; x00])
    (Z.of_nat (length (encode_records [ev_create_delete; ev_other])))
  = Ok (true, map broadcast_event [ev_create_delete; ev_other]).
Proof.
  assert (W : Forall named_event [ev_create_delete; ev_other])
    by (constructor; [apply ev_create_delete_named
                     | constructor; [apply ev_other_named | constructor]]).
  assert (A : Forall (fun e => (fun _ : Broadcast.Event => true) (broadcast_event e) = true)
                     [ev_create_delete; ev_other])
    by (repeat constructor).
  split; [exact W|]. split; [exact A|]. split; [lia|].
  apply (emit_data_round_trip (fun _ => true) [ev_create_delete; ev_other]
           [x00; x00] 64 W A).
  lia.
Defined.

(** X5: [_emit_data] stops at the first event the handler refuses: the
    events before it and the refused one have been raised, in order, no
    later event is raised, and the result is false. *)
Theorem emit_data_stops_at_refusal (h : Broadcast.Event -> bool)
  (before : list InotifyEvent.t) (e : InotifyEvent.t) (after : list InotifyEvent.t)
  (slack : list byte) (nbytes : Z) :
  Forall named_event before ->
  named_event e ->
  Forall (fun x => h (broadcast_event x) = true) before ->
  h (broadcast_event e) = false ->
  0 <= nbytes ->
  Broadcast._emit_data true h nbytes (encode_records (before ++ e :: after) ++ slack)
    (Z.of_nat (length (encode_records (before ++ e :: after))))
  = Ok (false, map broadcast_event before ++ [broadcast_event e]).
Proof.
  intros Hwf He Hacc Href Hn. unfold Broadcast._emit_data.
  replace (nbytes <? 0) with false by (symmetry; apply Z.ltb_ge; exact Hn).
  rewrite Nat2Z.id.
  pose proof (length_encode_record e He) as Hlen.
  unfold encode_records. rewrite flat_map_app. cbn [flat_map].
  fold (encode_records before). fold (encode_records after).
  rewrite <- !app_assoc.
  set (rest := encode_record e ++ encode_records after ++ slack).
  set (bytes := length (encode_records before ++ encode_record e ++ encode_records after)).
  assert (Hb : (length (encode_records before) < bytes)%nat)
    by (unfold bytes; rewrite !length_app, Hlen; unfold sizeof_inotify_event; lia).
  pose proof (emit_loop_records h bytes rest before [] [] Hwf Hacc) as E.
  cbn [app length Nat.add] in E. rewrite E by lia. clear E.
  rewrite emit_loop_step.
  destruct (lt_dec _ _) as [_|Hge]; [|lia].
  unfold rest.
  rewrite (event_at_encode (encode_records before) (encode_records after ++ slack) e He).
  rewrite Href. reflexivity.
Qed.

Lemma emit_data_stops_at_refusal_witness :
  Forall named_event [ev_create_delete] /\ named_event ev_other /\
  Forall (fun x => (fun ev => Broadcast.wd ev =? 5) (broadcast_event x) = true)
         [ev_create_delete] /\
  (fun ev => Broadcast.wd ev =? 5) (broadcast_event ev_other) = false /\
  0 <= 96 /\
  Broadcast._emit_data true (fun ev => Broadcast.wd ev =? 5) 96
    (encode_records ([ev_create_delete] ++ ev_other :: [ev_create]) ++ [])
    (Z.of_nat (length (encode_records ([ev_create_delete] ++ ev_other :: [ev_create]))))
  = Ok (false, map broadcast_event [ev_create_delete] ++ [broadcast_event ev_other]).
Proof.
  assert (W : Forall named_event [ev_create_delete])
    by (constructor; [apply ev_create_delete_named | constructor]).
  assert (A : Forall (fun x => (fun ev => Broadcast.wd ev =? 5) (broadcast_event x) = true)
                     [ev_create_delete])
    by (repeat constructor).
  split; [exact W|]. split; [apply ev_other_named|]. split; [exact A|].
  split; [reflexivity|]. split; [lia|].
  apply (emit_data_stops_at_refusal (fun ev => Broadcast.wd ev =? 5)
           [ev_create_delete] ev_other [ev_create] [] 96 W ev_other_named A);
    [reflexivity | lia].
Defined.

Lemma to_size_t_of_nat (n : nat) :
  Z.of_nat n < 2 ^ 64 -> Broadcast.to_size_t (Z.of_nat n) = n.
Proof.
  intros H. unfold Broadcast.to_size_t. rewrite Z.mod_small by lia. apply Nat2Z.id.
Qed.

(** X6: [_resize] never returns false, never shrinks the buffer and never
    loses it.  When it returns, its result is true and the buffer holds at
    least [new_size] bytes: it is the old one when that was large enough and
    the fresh array otherwise, and a read of at most [new_size] bytes then
    stays within the array.  The call is left by [std::bad_alloc] exactly
    when a larger array is needed and the allocation throws; the buffer is
    then the old one. *)
Theorem resize_keeps_buffer (fresh : option (list byte)) (new_size : nat)
  (b : Broadcast.buffer) :
  buffer_ok b ->
  (forall arr, fresh = Some arr -> length arr = new_size) ->
  (forall b', Broadcast._resize fresh new_size b <> Broadcast.returns (false, b')) /\
  ((new_size <= Broadcast._raw_len b)%nat ->
   Broadcast._resize fresh new_size b = Broadcast.returns (true, b)) /\
  ((Broadcast._raw_len b < new_size)%nat -> fresh = None ->
   Broadcast._resize fresh new_size b = Broadcast.bad_alloc b) /\
  (forall b', Broadcast._resize fresh new_size b = Broadcast.bad_alloc b' ->
              b' = b /\ fresh = None /\ (Broadcast._raw_len b < new_size)%nat) /\
  (forall r b', Broadcast._resize fresh new_size b = Broadcast.returns (r, b') ->
     r = true /\ buffer_ok b' /\
     (Broadcast._raw_len b <= Broadcast._raw_len b')%nat /\
     (new_size <= Broadcast._raw_len b')%nat /\
     ((Broadcast._raw_len b < new_size)%nat ->
      fresh = Some (Broadcast._raw b') /\ Broadcast._raw_len b' = new_size) /\
     forall (delivered : option (list byte)) (bytes : Z),
       (Broadcast.to_size_t bytes <= new_size)%nat ->
       length (snd (Broadcast.read_into delivered bytes (Broadcast._raw b')))
       = length (Broadcast._raw b')).
Proof.
  unfold buffer_ok. intros Hok Hfresh. unfold Broadcast._resize.
  assert (Hread : forall (raw : list byte) (delivered : option (list byte)) (bytes : Z),
             (Broadcast.to_size_t bytes <= length raw)%nat ->
             length (snd (Broadcast.read_into delivered bytes raw)) = length raw).
  { intros raw delivered bytes Hb. unfold Broadcast.read_into.
    destruct delivered as [d|]; cbn [snd]; [|reflexivity].
    rewrite length_app, length_skipn.
    pose proof (firstn_le_length (Broadcast.to_size_t bytes) d). lia. }
  destruct (Nat.ltb_spec (Broadcast._raw_len b) new_size) as [Hlt|Hge].
  - destruct fresh as [arr|].
    + specialize (Hfresh arr eq_refl).
      split; [intros b'; discriminate|]. split; [lia|]. split; [discriminate|].
      split; [intros b'; discriminate|].
      intros r b' E. inversion E; subst r b'.
      cbn [Broadcast._raw Broadcast._raw_len].
      split; [reflexivity|]. split; [symmetry; exact Hfresh|]. split; [lia|].
      split; [lia|]. split; [auto|].
      intros delivered bytes Hb. apply Hread. lia.
    + split; [intros b'; discriminate|]. split; [lia|]. split; [reflexivity|].
      split; [intros b0 E; injection E as <-; auto|].
      intros r b0 E. discriminate.
  - split; [intros b'; discriminate|]. split; [reflexivity|]. split; [lia|].
    split; [intros b'; discriminate|].
    intros r b' E. inversion E; subst r b'.
    split; [reflexivity|]. split; [exact Hok|]. split; [lia|]. split; [lia|].
    split; [lia|].
    intros delivered bytes Hb. apply Hread. lia.
Qed.

(** Witness of [resize_keeps_buffer]: the empty buffer grown to four
    bytes. *)
Lemma resize_keeps_buffer_witness :
  buffer_ok (Broadcast.mkBuffer [] 0) /\
  (forall arr, Some [x00; x00; x00; x00] = Some arr -> length arr = 4%nat) /\
  (forall b', Broadcast._resize (Some [x00; x00; x00; x00]) 4 (Broadcast.mkBuffer [] 0)
              <> Broadcast.returns (false, b')) /\
  ((4 <= Broadcast._raw_len (Broadcast.mkBuffer [] 0))%nat ->
   Broadcast._resize (Some [x00; x00; x00; x00]) 4 (Broadcast.mkBuffer [] 0)
   = Broadcast.returns (true, Broadcast.mkBuffer [] 0)) /\
  ((Broadcast._raw_len (Broadcast.mkBuffer [] 0) < 4)%nat ->
   Some [x00; x00; x00; x00] = None ->
   Broadcast._resize (Some [x00; x00; x00; x00]) 4 (Broadcast.mkBuffer [] 0)
   = Broadcast.bad_alloc (Broadcast.mkBuffer [] 0)) /\
  (forall b', Broadcast._resize (Some [x00; x00; x00; x00]) 4 (Broadcast.mkBuffer [] 0)
              = Broadcast.bad_alloc b' ->
              b' = Broadcast.mkBuffer [] 0 /\ Some [x00; x00; x00; x00] = None /\
              (Broadcast._raw_len (Broadcast.mkBuffer [] 0) < 4)%nat) /\
  (forall r b', Broadcast._resize (Some [x00; x00; x00; x00]) 4 (Broadcast.mkBuffer [] 0)
                = Broadcast.returns (r, b') ->
     r = true /\ buffer_ok b' /\
     (Broadcast._raw_len (Broadcast.mkBuffer [] 0) <= Broadcast._raw_len b')%nat /\
     (4 <= Broadcast._raw_len b')%nat /\
     ((Broadcast._raw_len (Broadcast.mkBuffer [] 0) < 4)%nat ->
      Some [x00; x00; x00; x00] = Some (Broadcast._raw b') /\
      Broadcast._raw_len b' = 4%nat) /\
     forall (delivered : option (list byte)) (bytes : Z),
       (Broadcast.to_size_t bytes <= 4)%nat ->
       length (snd (Broadcast.read_into delivered bytes (Broadcast._raw b')))
       = length (Broadcast._raw b')).
Proof.
  assert (F : forall arr, Some [x00; x00; x00; x00] = Some arr -> length arr = 4%nat)
    by (intros arr H; inversion H; reflexivity).
  split; [reflexivity|]. split; [exact F|].
  apply (resize_keeps_buffer (Some [x00; x00; x00; x00]) 4 (Broadcast.mkBuffer [] 0));
    [reflexivity | exact F].
Defined.

(** X7: [poll(timeout)] from the kernel's bytes to the handler.  When the
    descriptor is readable, [ioctl] reports the size of the pending records
    of events that carry a name, a handler is connected and accepts every
    event, and [::read] delivers these records, [poll] returns true having
    raised one event per record in the order of the records; the buffer has
    not shrunk, holds at least the bytes read and starts with them. *)
Theorem broadcast_poll_delivers (h : Broadcast.Event -> bool)
  (evs : list InotifyEvent.t) (arr : list byte) (ior : Z) (b : Broadcast.buffer) :
  buffer_ok b ->
  Forall named_event evs ->
  Forall (fun e => h (broadcast_event e) = true) evs ->
  0 <= ior ->
  Z.of_nat (length (encode_records evs)) < 2 ^ 64 ->
  length arr = length (encode_records evs) ->
  exists b',
    Broadcast.poll
      (Broadcast.mk_poll_env true ior (Z.of_nat (length (encode_records evs)))
         (Some arr) true h (Some (encode_records evs))) b
    = Ok (Broadcast.returns (true, b', map broadcast_event evs)) /\
    buffer_ok b' /\
    (Broadcast._raw_len b <= Broadcast._raw_len b')%nat /\
    (length (encode_records evs) <= Broadcast._raw_len b')%nat /\
    firstn (length (encode_records evs)) (Broadcast._raw b') = encode_records evs.
Proof.
  intros Hok Hwf Hacc Hior Hsz Harr.
  set (data := encode_records evs) in *.
  unfold Broadcast.poll.
  cbn [Broadcast.can_read Broadcast.ioctl_ret Broadcast.fsize Broadcast.fresh
       Broadcast.connected Broadcast.handler Broadcast.read_ret].
  replace (ior <? 0) with false by (symmetry; apply Z.ltb_ge; exact Hior).
  rewrite (to_size_t_of_nat _ Hsz).
  assert (R : exists b1,
             Broadcast._resize (Some arr) (length data) b = Broadcast.returns (true, b1) /\
             buffer_ok b1 /\
             (Broadcast._raw_len b <= Broadcast._raw_len b1)%nat /\
             (length data <= Broadcast._raw_len b1)%nat).
  { unfold Broadcast._resize, buffer_ok in *.
    destruct (Nat.ltb_spec (Broadcast._raw_len b) (length data)).
    - eexists. split; [reflexivity|]. simpl. lia.
    - eexists. split; [reflexivity|]. lia. }
  destruct R as (b1 & -> & Hok1 & Hmono & Hfit). cbn [negb].
  unfold Broadcast.read_into. rewrite (to_size_t_of_nat _ Hsz), firstn_all.
  unfold Broadcast._emit_data.
  replace (Z.of_nat (length data) <? 0) with false by (symmetry; apply Z.ltb_ge; lia).
  rewrite Nat2Z.id.
  pose proof (emit_loop_records h (length data) (skipn (length data) (Broadcast._raw b1))
                evs [] [] Hwf Hacc (Nat.le_refl _)) as E.
  cbn [app length Nat.add] in E. fold data in E. rewrite E, emit_loop_step.
  destruct (lt_dec _ _) as [Hlt|_]; [lia|]. cbn [bind app].
  eexists. split; [reflexivity|].
  unfold buffer_ok in *. cbn [Broadcast._raw Broadcast._raw_len].
  split; [rewrite length_app, length_skipn; lia|].
  split; [exact Hmono|]. split; [exact Hfit|].
  rewrite firstn_app, Nat.sub_diag, firstn_O, app_nil_r. apply firstn_all.
Qed.

Lemma broadcast_poll_delivers_witness :
  buffer_ok (Broadcast.mkBuffer [] 0) /\
  Forall named_event [ev_create_delete] /\
  Forall (fun e => (fun _ : Broadcast.Event => true) (broadcast_event e) = true)
         [ev_create_delete] /\
  0 <= 0 /\
  Z.of_nat (length (encode_records [ev_create_delete])) < 2 ^ 64 /\
  length (repeat x00 32) = length (encode_records [ev_create_delete]) /\
  exists b',
    Broadcast.poll
      (Broadcast.mk_poll_env true 0 (Z.of_nat (length (encode_records [ev_create_delete])))
         (Some (repeat x00 32)) true (fun _ => true)
         (Some (encode_records [ev_create_delete]))) (Broadcast.mkBuffer [] 0)
    = Ok (Broadcast.returns (true, b', map broadcast_event [ev_create_delete])) /\
    buffer_ok b' /\
    (Broadcast._raw_len (Broadcast.mkBuffer [] 0) <= Broadcast._raw_len b')%nat /\
    (length (encode_records [ev_create_delete]) <= Broadcast._raw_len b')%nat /\
    firstn (length (encode_records [ev_create_delete])) (Broadcast._raw b')
      = encode_records [ev_create_delete].
Proof.
  assert (W : Forall named_event [ev_create_delete])
    by (constructor; [apply ev_create_delete_named | constructor]).
  assert (A : Forall (fun e => (fun _ : Broadcast.Event => true) (broadcast_event e) = true)
                     [ev_create_delete])
    by (repeat constructor).
  assert (S : Z.of_nat (length (encode_records [ev_create_delete])) < 2 ^ 64)
    by (vm_compute; reflexivity).
  split; [reflexivity|]. split; [exact W|]. split; [exact A|]. split; [lia|].
  split; [exact S|]. split; [reflexivity|].
  apply (broadcast_poll_delivers (fun _ => true) [ev_create_delete] (repeat x00 32) 0
           (Broadcast.mkBuffer [] 0)); [reflexivity | exact W | exact A | lia | exact S
                                       | reflexivity].
Defined.

(** ** Further properties: [mask2name] *)

Lemma mask2name_unfold (mask : Z) :
  mask2name mask =
  if mask =? 0 then ""%string
  else
    let output := delimited (class_names mask) in
    if negb (String.eqb output ""%string)
    then String.substring 0 (String.length output - 3) output
    else output.
Proof.
  unfold mask2name. rewrite mask2name_loop_delimited. reflexivity.
Qed.

Lemma class_names_0 : class_names 0 = [].
Proof. reflexivity. Qed.

Lemma mask2name_concat (mask : Z) :
  mask2name mask = String.concat delimiter (class_names mask).
Proof.
  rewrite mask2name_unfold.
  destruct (Z.eqb_spec mask 0) as [->|_]; [reflexivity|].
  destruct (class_names mask) as [|v names] eqn:N; [reflexivity|].
  cbv zeta. rewrite delimited_concat by discriminate.
  set (c := String.concat delimiter (v :: names)).
  assert (L : String.length (String.append c delimiter) = (String.length c + 3)%nat)
    by (rewrite string_length_append; reflexivity).
  replace (String.eqb (String.append c delimiter) ""%string) with false.
  2:{ symmetry. apply String.eqb_neq. intros E. rewrite E in L. simpl in L. lia. }
  cbn [negb]. rewrite L.
  replace (String.length c + 3 - 3)%nat with (String.length c) by lia.
  apply substring_prefix.
Qed.

Lemma int2str_keys :
  map fst int2str =
  [IN_ACCESS; IN_MODIFY; IN_ATTRIB; IN_CLOSE_WRITE; IN_CLOSE_NOWRITE; IN_OPEN;
   IN_MOVED_FROM; IN_MOVED_TO; IN_CREATE; IN_DELETE; IN_DELETE_SELF; IN_MOVE_SELF].
Proof. reflexivity. Qed.

Lemma land_known_class (mask k : Z) :
  In k (map fst int2str) -> Z.land (Z.land mask 0xFFF) k = Z.land mask k.
Proof.
  intros H. rewrite <- Z.land_assoc. f_equal.
  rewrite int2str_keys in H.
  repeat (destruct H as [<-|H]; [reflexivity|]). contradiction.
Qed.

Lemma class_names_known_bits (mask : Z) :
  class_names (Z.land mask 0xFFF) = class_names mask.
Proof.
  unfold class_names. f_equal. apply filter_ext_in. intros kv Hin.
  rewrite land_known_class by (apply in_map; exact Hin). reflexivity.
Qed.

(** X8: [mask2name] returns the names of the classes the mask has, joined
    by " | " with no delimiter at the end, in the ascending order of the
    class bits (the order [std::map] iterates in, whatever the order of the
    assignments); the empty string when the mask has none. *)
Theorem mask2name_joins_class_names (mask : Z) :
  mask2name mask =
    String.concat " | "%string
      (map snd (filter (fun kv => negb (Z.land mask (fst kv) =? 0)) int2str)) /\
  map fst int2str =
    [IN_ACCESS; IN_MODIFY; IN_ATTRIB; IN_CLOSE_WRITE; IN_CLOSE_NOWRITE; IN_OPEN;
     IN_MOVED_FROM; IN_MOVED_TO; IN_CREATE; IN_DELETE; IN_DELETE_SELF; IN_MOVE_SELF] /\
  map snd int2str =
    ["IN_ACCESS"; "IN_MODIFY"; "IN_ATTRIB"; "IN_CLOSE_WRITE"; "IN_CLOSE_NOWRITE";
     "IN_OPEN"; "IN_MOVED_FROM"; "IN_MOVED_TO"; "IN_CREATE"; "IN_DELETE";
     "IN_DELETE_SELF"; "IN_MOVE_SELF"]%string.
Proof.
  split; [exact (mask2name_concat mask)|]. split; reflexivity.
Qed.

(** X9: only the twelve classes [mask2name] knows count: bits of the mask
    outside [0xFFF] (such as [IN_ISDIR] or [IN_IGNORED]) never change the
    name, and the name is empty exactly when the mask has none of the twelve
    classes. *)
Theorem mask2name_known_bits (mask : Z) :
  mask2name mask = mask2name (Z.land mask 0xFFF) /\
  (mask2name mask = ""%string <-> Z.land mask 0xFFF = 0).
Proof.
  split.
  - rewrite !mask2name_concat, class_names_known_bits. reflexivity.
  - rewrite mask2name_concat. split.
    + intros E.
      assert (N : class_names mask = []).
      { destruct (class_names mask) as [|v names] eqn:N; [reflexivity|]. exfalso.
        assert (Hv : In v (map snd int2str)).
        { assert (Hin : In v (class_names mask)) by (rewrite N; left; reflexivity).
          unfold class_names in Hin. apply in_map_iff in Hin.
          destruct Hin as (kv & <- & Hkv). apply filter_In in Hkv.
          apply in_map. tauto. }
        assert (Hne : v <> ""%string).
        { simpl in Hv. repeat (destruct Hv as [<-|Hv]; [discriminate|]). contradiction. }
        destruct v as [|ch v]; [congruence|].
        destruct names; simpl in E; discriminate. }
      assert (Z0 : forall k, In k (map fst int2str) -> Z.land mask k = 0).
      { intros k Hk. apply in_map_iff in Hk. destruct Hk as (kv & <- & Hkv).
        destruct (Z.land mask (fst kv) =? 0) eqn:Q; [apply Z.eqb_eq; exact Q|].
        exfalso. unfold class_names in N.
        assert (In kv (filter (fun kv => negb (Z.land mask (fst kv) =? 0)) int2str))
          by (apply filter_In; rewrite Q; auto).
        apply (in_map snd) in H. rewrite N in H. exact H. }
      rewrite int2str_keys in Z0.
      change 0xFFF with
        (Z.lor IN_ACCESS (Z.lor IN_MODIFY (Z.lor IN_ATTRIB (Z.lor IN_CLOSE_WRITE
          (Z.lor IN_CLOSE_NOWRITE (Z.lor IN_OPEN (Z.lor IN_MOVED_FROM (Z.lor IN_MOVED_TO
            (Z.lor IN_CREATE (Z.lor IN_DELETE (Z.lor IN_DELETE_SELF IN_MOVE_SELF))))))))))).
      rewrite !Z.land_lor_distr_r.
      rewrite !Z0 by (simpl; tauto). reflexivity.
    + intros E. rewrite <- class_names_known_bits, E. reflexivity.
Qed.

(** ** Further properties: the watch registry *)

Lemma uint32_of_int32 (m : Z) : 0 <= m < 2 ^ 32 -> to_uint32 (to_int32 m) = m.
Proof.
  unfold to_uint32, to_int32.
  change (2 ^ 31) with 2147483648. change (2 ^ 32) with 4294967296.
  intros H. Z.div_mod_to_equations. lia.
Qed.

Lemma exists_loop_app (wd : Z) (l1 l2 : watch_l) :
  exists_loop wd (l1 ++ l2) = exists_loop wd l1 || exists_loop wd l2.
Proof.
  induction l1 as [|w l1 IH]; simpl; [reflexivity|].
  destruct (Watch.wd w =? wd); [reflexivity | exact IH].
Qed.

Lemma detach_wd_unbound (wd : Z) (st : Inotify) :
  (forall s, In s (_sigs st) -> sig_info.wd s <> wd) ->
  detach_wd wd st = Ok (false, st).
Proof.
  intros H. rewrite detach_wd_spec.
  destruct (existsb (fun s => sig_info.wd s =? wd) (_sigs st)) eqn:X; [|reflexivity].
  apply existsb_exists in X. destruct X as (s & Hs & E). apply Z.eqb_eq in E.
  elim (H s Hs E).
Qed.

Lemma unregistered_unbound (wd : Z) (st : Inotify) :
  bindings_registered st ->
  ~ In wd (map Watch.wd (_watches st)) ->
  forall s, In s (_sigs st) -> sig_info.wd s <> wd.
Proof.
  intros B Hn s Hs E. apply Hn. rewrite <- E. apply B. exact Hs.
Qed.

Lemma rm_watch_loop_absent (kernel_rm wd : Z) (ws : watch_l) :
  ~ In wd (map Watch.wd ws) -> rm_watch_loop kernel_rm wd ws = (false, ws).
Proof.
  induction ws as [|w ws IH]; simpl; intros Hn; [reflexivity|].
  destruct (Z.eqb_spec (Watch.wd w) wd) as [E|E]; [elim Hn; auto|].
  rewrite IH by tauto. reflexivity.
Qed.

Lemma rm_watch_loop_found (kernel_rm : Z) (l1 l2 : watch_l) (w : Watch.t) :
  ~ In (Watch.wd w) (map Watch.wd l1) ->
  rm_watch_loop kernel_rm (Watch.wd w) (l1 ++ w :: l2) = (kernel_rm =? 0, l1 ++ l2).
Proof.
  induction l1 as [|a l1 IH]; simpl; intros Hn.
  - rewrite Z.eqb_refl. reflexivity.
  - destruct (Z.eqb_spec (Watch.wd a) (Watch.wd w)) as [E|E]; [elim Hn; auto|].
    rewrite IH by tauto. reflexivity.
Qed.

(** X10: when the kernel returns a descriptor that is not registered (and
    is not the failure value), [add_watch] returns it and appends one watch
    with the given path and mask behind the watches of the registry, which
    are kept; the descriptor exists afterwards, and the handler table and
    the queue are as before. *)
Theorem add_watch_new_descriptor (kernel_wd : Z) (path : string) (mask : Z)
  (st : Inotify) :
  exists_ kernel_wd st = false ->
  kernel_wd <> -1 ->
  0 <= mask < 2 ^ 32 ->
  add_watch kernel_wd path mask st =
    (kernel_wd, set_watches (_watches st ++ [Watch.make mask path kernel_wd]) st) /\
  exists_ kernel_wd (snd (add_watch kernel_wd path mask st)) = true /\
  (forall wd, exists_ wd st = true ->
              exists_ wd (snd (add_watch kernel_wd path mask st)) = true).
Proof.
  intros Hex Hk Hm.
  assert (E : add_watch kernel_wd path mask st =
              (kernel_wd,
               set_watches (_watches st ++ [Watch.make mask path kernel_wd]) st)).
  { unfold add_watch. rewrite Hex.
    replace (kernel_wd =? -1) with false by (symmetry; apply Z.eqb_neq; exact Hk).
    cbn [negb]. rewrite (uint32_of_int32 _ Hm). reflexivity. }
  rewrite E. cbn [snd]. unfold exists_ in *. cbn [_watches set_watches].
  split; [reflexivity|]. split.
  - rewrite exists_loop_app. simpl. rewrite Z.eqb_refl. apply orb_true_r.
  - intros wd H. rewrite exists_loop_app, H. reflexivity.
Qed.

Lemma add_watch_new_descriptor_witness :
  exists_ 9 st_watch = false /\ 9 <> -1 /\ 0 <= IN_CREATE < 2 ^ 32 /\
  add_watch 9 "/tmp/b"%string IN_CREATE st_watch =
    (9, set_watches (_watches st_watch ++ [Watch.make IN_CREATE "/tmp/b"%string 9])
          st_watch) /\
  exists_ 9 (snd (add_watch 9 "/tmp/b"%string IN_CREATE st_watch)) = true /\
  (forall wd, exists_ wd st_watch = true ->
              exists_ wd (snd (add_watch 9 "/tmp/b"%string IN_CREATE st_watch)) = true).
Proof.
  assert (M : 0 <= IN_CREATE < 2 ^ 32) by (unfold IN_CREATE; simpl; lia).
  split; [reflexivity|]. split; [lia|]. split; [exact M|].
  apply (add_watch_new_descriptor 9 "/tmp/b"%string IN_CREATE st_watch);
    [reflexivity | lia | exact M].
Defined.

(** X11: when the kernel refuses the watch ([inotify_add_watch] returns
    -1), [add_watch] returns -1 and the object is unchanged, provided no
    watch of descriptor -1 is registered, which holds for every object that
    calls lead to. *)
Theorem add_watch_kernel_failure (path : string) (mask : Z) (st : Inotify) :
  sentinel_free st ->
  add_watch (-1) path mask st = (-1, st).
Proof.
  intros S. unfold add_watch.
  replace (exists_ (-1) st) with false
    by (symmetry; apply exists_loop_false; exact S).
  reflexivity.
Qed.

Lemma add_watch_kernel_failure_witness :
  sentinel_free st_bound /\
  add_watch (-1) "/nowhere"%string IN_CREATE st_bound = (-1, st_bound).
Proof.
  assert (S : sentinel_free st_bound)
    by (exact (proj2 (proj2 (proj2 (reachable_consistent _ st_bound_reachable))))).
  split; [exact S|].
  apply (add_watch_kernel_failure "/nowhere"%string IN_CREATE st_bound S).
Defined.

(** X12: [rm_watch(wd)] on a descriptor that is not registered returns
    false and leaves the object as it is, in every object whose bindings
    are bound to registered descriptors. *)
Theorem rm_watch_unknown_descriptor (kernel_rm wd : Z) (st : Inotify) :
  bindings_registered st ->
  exists_ wd st = false ->
  rm_watch kernel_rm wd st = Ok (false, st).
Proof.
  intros B Hex. apply exists_loop_false in Hex.
  unfold rm_watch. rewrite (rm_watch_loop_absent _ _ _ Hex).
  rewrite detach_wd_unbound.
  - cbn [bind]. destruct st; reflexivity.
  - exact (unregistered_unbound wd st B Hex).
Qed.

Lemma rm_watch_unknown_descriptor_witness :
  bindings_registered st_bound /\ exists_ 9 st_bound = false /\
  rm_watch 0 9 st_bound = Ok (false, st_bound).
Proof.
  assert (B : bindings_registered st_bound)
    by (exact (proj1 (proj2 (proj2 (reachable_consistent _ st_bound_reachable))))).
  split; [exact B|]. split; [reflexivity|].
  apply (rm_watch_unknown_descriptor 0 9 st_bound B). reflexivity.
Defined.

(** X13: [rm_watch(wd)] on a registered descriptor to which no handler is
    bound erases its registry entry and keeps the other entries in their
    order, whether or not the kernel accepts the removal; it returns true
    exactly when [inotify_rm_watch] returned 0.  Afterwards the descriptor
    does not exist and every other descriptor exists as before. *)
Theorem rm_watch_registered (kernel_rm : Z) (l1 l2 : watch_l) (w : Watch.t)
  (st : Inotify) :
  registry_ok st ->
  _watches st = l1 ++ w :: l2 ->
  (forall s, In s (_sigs st) -> sig_info.wd s <> Watch.wd w) ->
  rm_watch kernel_rm (Watch.wd w) st = Ok (kernel_rm =? 0, set_watches (l1 ++ l2) st) /\
  exists_ (Watch.wd w) (set_watches (l1 ++ l2) st) = false /\
  (forall wd, wd <> Watch.wd w ->
              exists_ wd (set_watches (l1 ++ l2) st) = exists_ wd st).
Proof.
  unfold registry_ok. intros R E Hs. rewrite E in R.
  rewrite map_app in R. cbn [map] in R.
  pose proof (NoDup_remove_2 _ _ _ R) as Hn.
  assert (Hn1 : ~ In (Watch.wd w) (map Watch.wd l1))
    by (intros H; apply Hn; apply in_or_app; auto).
  split.
  - unfold rm_watch. rewrite E, (rm_watch_loop_found _ _ _ _ Hn1).
    rewrite detach_wd_unbound by exact Hs. reflexivity.
  - unfold exists_. cbn [_watches set_watches]. rewrite E. split.
    + apply exists_loop_false. rewrite map_app. exact Hn.
    + intros wd Hwd. rewrite !exists_loop_app. simpl.
      destruct (Z.eqb_spec (Watch.wd w) wd); [congruence | reflexivity].
Qed.

Lemma rm_watch_registered_witness :
  registry_ok st_watch /\ _watches st_watch = [] ++ watch_a :: [] /\
  (forall s, In s (_sigs st_watch) -> sig_info.wd s <> Watch.wd watch_a) /\
  rm_watch (-1) (Watch.wd watch_a) st_watch
    = Ok (-1 =? 0, set_watches ([] ++ []) st_watch) /\
  exists_ (Watch.wd watch_a) (set_watches ([] ++ []) st_watch) = false /\
  (forall wd, wd <> Watch.wd watch_a ->
              exists_ wd (set_watches ([] ++ []) st_watch) = exists_ wd st_watch).
Proof.
  assert (R : registry_ok st_watch)
    by (exact (proj1 (reachable_consistent _ st_watch_reachable))).
  assert (U : forall s, In s (_sigs st_watch) -> sig_info.wd s <> Watch.wd watch_a)
    by (intros s []).
  split; [exact R|]. split; [reflexivity|]. split; [exact U|].
  apply (rm_watch_registered (-1) [] [] watch_a st_watch R eq_refl U).
Defined.

(** X14: adding a watch and removing it again gives the object back: after
    [add_watch] has registered a new descriptor, [rm_watch] of that
    descriptor, accepted by the kernel, returns true and leaves the object
    as it was before the [add_watch]. *)
Theorem add_then_rm_watch (kernel_wd : Z) (path : string) (mask : Z) (st : Inotify) :
  consistent st ->
  exists_ kernel_wd st = false ->
  kernel_wd <> -1 ->
  rm_watch 0 kernel_wd (snd (add_watch kernel_wd path mask st)) = Ok (true, st).
Proof.
  intros (R & _ & B & _) Hex Hk.
  assert (E : snd (add_watch kernel_wd path mask st) =
              set_watches (_watches st
                           ++ [Watch.make (to_uint32 (to_int32 mask)) path kernel_wd]) st).
  { unfold add_watch. rewrite Hex.
    replace (kernel_wd =? -1) with false by (symmetry; apply Z.eqb_neq; exact Hk).
    reflexivity. }
  rewrite E. apply exists_loop_false in Hex.
  unfold rm_watch. cbn [_watches set_watches].
  pose proof (rm_watch_loop_found 0 (_watches st) []
                (Watch.make (to_uint32 (to_int32 mask)) path kernel_wd) Hex) as L.
  cbn [Watch.wd] in L. rewrite L, app_nil_r, detach_wd_unbound.
  - cbn [bind]. destruct st; reflexivity.
  - exact (unregistered_unbound kernel_wd st B Hex).
Qed.

Lemma add_then_rm_watch_witness :
  consistent st_bound /\ exists_ 9 st_bound = false /\ 9 <> -1 /\
  rm_watch 0 9 (snd (add_watch 9 "/tmp/b"%string IN_MODIFY st_bound)) = Ok (true, st_bound).
Proof.
  assert (C : consistent st_bound) by (exact (reachable_consistent _ st_bound_reachable)).
  split; [exact C|]. split; [reflexivity|]. split; [lia|].
  apply (add_then_rm_watch 9 "/tmp/b"%string IN_MODIFY st_bound C); [reflexivity | lia].
Defined.

(** ** Further properties: the handler table *)

Lemma sig_exists_loop_app (wd mask : Z) (l1 l2 : signal_l) :
  sig_exists_loop wd mask (l1 ++ l2) =
  sig_exists_loop wd mask l1 || sig_exists_loop wd mask l2.
Proof.
  rewrite !sig_exists_loop_existsb. apply existsb_app.
Qed.

Lemma detach_loop_last (wd mask : Z) (h : signal) (sigs : signal_l) :
  sig_exists_loop wd mask sigs = false ->
  detach_loop wd mask (sigs ++ [sig_info.make mask h wd]) = (true, sigs).
Proof.
  induction sigs as [|s sigs IH]; simpl.
  - intros _. rewrite !Z.eqb_refl. reflexivity.
  - destruct ((sig_info.wd s =? wd) && (sig_info.mask s =? mask)); [discriminate|].
    intros H. rewrite (IH H). reflexivity.
Qed.

(** X15: [attach] returns true exactly when the descriptor is registered
    and the handler is one the signal accepts.  After a true result the
    pair is bound; on an unregistered descriptor nothing changes; and in no
    case does [attach] touch the registry or the queue. *)
Theorem attach_result (wd mask : Z) (f : callable) (st : Inotify) :
  let r := attach wd mask f st in
  (fst r = true <-> exists_ wd st = true /\ f <> null_func) /\
  (fst r = true -> sig_exists wd mask (snd r) = true) /\
  (exists_ wd st = false -> snd r = st) /\
  _watches (snd r) = _watches st /\ _event_queue (snd r) = _event_queue st.
Proof.
  unfold attach.
  assert (F : _watches (if sig_exists wd mask st then snd (detach wd mask st) else st)
              = _watches st /\
              _event_queue (if sig_exists wd mask st then snd (detach wd mask st) else st)
              = _event_queue st).
  { destruct (sig_exists wd mask st); [|auto].
    unfold detach. destruct (detach_loop wd mask (_sigs st)). auto. }
  destruct F as [Fw Fq].
  destruct (exists_ wd st); cbn [negb].
  - destruct f as [|id]; cbn [Signal_attach fst snd].
    + split; [split; [discriminate | intros [_ H]; elim H; reflexivity]|].
      split; [discriminate|]. split; [discriminate|]. auto.
    + split; [split; [intros _; split; [reflexivity | discriminate] | reflexivity]|].
      split.
      { intros _. unfold sig_exists. cbn [_sigs set_sigs].
        rewrite sig_exists_loop_app. simpl. rewrite !Z.eqb_refl. apply orb_true_r. }
      split; [discriminate|]. auto.
  - cbn [fst snd].
    split; [split; [discriminate | intros [H _]; discriminate]|].
    split; [discriminate|]. auto.
Qed.

(** X16: attaching a handler to a pair that is not bound and detaching the
    pair again gives the object back: [detach(d, m)] returns true and the
    object is the one before the [attach]. *)
Theorem attach_then_detach (d m : Z) (h : nat) (st : Inotify) :
  exists_ d st = true ->
  sig_exists d m st = false ->
  detach d m (snd (attach d m (func h) st)) = (true, st).
Proof.
  intros Ex SE. unfold attach. rewrite Ex, SE. cbn [negb Signal_attach snd].
  unfold detach. cbn [_sigs set_sigs].
  rewrite (detach_loop_last d m h (_sigs st) SE). destruct st; reflexivity.
Qed.

Lemma attach_then_detach_witness :
  exists_ 5 st_bound = true /\ sig_exists 5 IN_DELETE st_bound = false /\
  detach 5 IN_DELETE (snd (attach 5 IN_DELETE (func 3) st_bound)) = (true, st_bound).
Proof.
  split; [reflexivity|]. split; [reflexivity|].
  apply (attach_then_detach 5 IN_DELETE 3 st_bound); reflexivity.
Defined.

(** X17: [detach(d, m)] returns true exactly when the pair is bound.  It
    then erases one binding, the first of the pair in the order of the
    table: the table was [l1 ++ b :: l2] with [b] a binding of the pair and
    none in [l1], and it is [l1 ++ l2] afterwards, so that a later binding
    of the same pair stays.  The bindings of every other pair stay, in their
    order; with at most one binding per pair the pair is not bound
    afterwards.  When the pair is not bound nothing changes.  The mask must
    be the very mask of the binding: a binding of [d] with another mask is
    never erased. *)
Theorem detach_pair (d m : Z) (st : Inotify) :
  let r := detach d m st in
  fst r = sig_exists d m st /\
  (sig_exists d m st = false -> snd r = st) /\
  (sig_exists d m st = true ->
   exists l1 b l2,
     _sigs st = l1 ++ b :: l2 /\
     sig_info.wd b = d /\ sig_info.mask b = m /\
     (forall x, In x l1 -> ~ (sig_info.wd x = d /\ sig_info.mask x = m)) /\
     _sigs (snd r) = l1 ++ l2) /\
  (sig_exists d m st = true -> length (_sigs (snd r)) + 1 = length (_sigs st))%nat /\
  filter (fun s => negb (same_key d m s)) (_sigs (snd r))
    = filter (fun s => negb (same_key d m s)) (_sigs st) /\
  (handlers_ok st -> sig_exists d m (snd r) = false) /\
  _watches (snd r) = _watches st /\ _event_queue (snd r) = _event_queue st.
Proof.
  unfold detach, sig_exists.
  destruct (sig_exists_loop d m (_sigs st)) eqn:SE.
  - destruct (detach_loop_found d m (_sigs st) SE) as (l1 & b & l2 & Hs & Kb & Hl1 & Hd).
    pose proof (detach_loop_filter d m (_sigs st)) as F.
    rewrite Hd in *. cbn [fst snd _sigs set_sigs _watches _event_queue] in *.
    split; [reflexivity|]. split; [discriminate|].
    split.
    { intros _. exists l1, b, l2.
      assert (K : forall x, same_key d m x = true <->
                            sig_info.wd x = d /\ sig_info.mask x = m).
      { intros x. unfold same_key. rewrite andb_true_iff, !Z.eqb_eq. tauto. }
      split; [exact Hs|]. split; [apply K; exact Kb|]. split; [apply K; exact Kb|].
      split; [|reflexivity].
      intros x Hx Hk. apply K in Hk. rewrite (Hl1 x Hx) in Hk. discriminate. }
    split; [intros _; rewrite Hs, !length_app; simpl; lia|].
    split; [rewrite Hs, !filter_app; simpl; rewrite Kb; reflexivity|].
    split; [|auto].
    intros OK. rewrite (F OK), sig_exists_loop_existsb.
    destruct (existsb _ _) eqn:X; [|reflexivity].
    apply existsb_exists in X. destruct X as (x & Hx & Kx).
    apply filter_In in Hx. rewrite Kx in Hx. destruct Hx. discriminate.
  - rewrite (detach_loop_absent d m (_sigs st) SE).
    cbn [fst snd _sigs set_sigs _watches _event_queue].
    split; [reflexivity|]. split; [intros _; destruct st; reflexivity|].
    split; [discriminate|].
    split; [discriminate|]. split; [reflexivity|]. split; [intros _; exact SE | auto].
Qed.

(** Of two bindings of the pair (5, [IN_CREATE]) the first leaves the
    table, the later one stays. *)
Example detach_erases_first_binding :
  let st := mkInotify []
              [sig_info.make IN_CREATE 1%nat 5; sig_info.make IN_DELETE 2%nat 5;
               sig_info.make IN_CREATE 3%nat 5] [watch_a] in
  fst (detach 5 IN_CREATE st) = true /\
  _sigs (snd (detach 5 IN_CREATE st))
  = [sig_info.make IN_DELETE 2%nat 5; sig_info.make IN_CREATE 3%nat 5].
Proof. split; reflexivity. Qed.

(** X18: [detach(wd)] never returns true.  Its result is defined exactly
    on the tables that hold no binding of [wd], and it is then false with
    the object unchanged. *)
Theorem detach_wd_never_true (wd : Z) (st : Inotify) :
  ((forall s, In s (_sigs st) -> sig_info.wd s <> wd) <->
   detach_wd wd st = Ok (false, st)) /\
  (forall st', detach_wd wd st <> Ok (true, st')) /\
  (detach_wd wd st = Undefined <-> exists s, In s (_sigs st) /\ sig_info.wd s = wd).
Proof.
  rewrite detach_wd_spec.
  destruct (existsb (fun s => sig_info.wd s =? wd) (_sigs st)) eqn:X.
  - apply existsb_exists in X. destruct X as (s & Hs & E). apply Z.eqb_eq in E.
    split; [|split].
    + split; [intros H; elim (H s Hs E) | discriminate].
    + intros st'. discriminate.
    + split; [intros _; exists s; auto | reflexivity].
  - split; [|split].
    + split; [reflexivity|]. intros _ s Hs E.
      assert (existsb (fun s => sig_info.wd s =? wd) (_sigs st) = true); [|congruence].
      apply existsb_exists. exists s. split; [exact Hs | apply Z.eqb_eq; exact E].
    + intros st' H. inversion H.
    + split; [discriminate|]. intros (s & Hs & E).
      assert (existsb (fun s => sig_info.wd s =? wd) (_sigs st) = true); [|congruence].
      apply existsb_exists. exists s. split; [exact Hs | apply Z.eqb_eq; exact E].
Qed.

(** X19: whatever calls with defined results an object has gone through,
    the descriptors of its watches are pairwise distinct, no (descriptor,
    mask) pair is bound twice, every binding is bound to a descriptor that
    exists, and the failure value -1 does not exist. *)
Theorem reachable_invariants (st : Inotify) :
  reachable st ->
  NoDup (map Watch.wd (_watches st)) /\
  NoDup (map key (_sigs st)) /\
  (forall s, In s (_sigs st) -> exists_ (sig_info.wd s) st = true) /\
  exists_ (-1) st = false.
Proof.
  intros Hr. destruct (reachable_consistent st Hr) as (R & H & B & S).
  split; [exact R|]. split; [exact H|]. split.
  - intros s Hs. apply exists_loop_In. apply B. exact Hs.
  - apply exists_loop_false. exact S.
Qed.

Lemma reachable_invariants_witness :
  reachable st_overlap /\
  NoDup (map Watch.wd (_watches st_overlap)) /\
  NoDup (map key (_sigs st_overlap)) /\
  (forall s, In s (_sigs st_overlap) -> exists_ (sig_info.wd s) st_overlap = true) /\
  exists_ (-1) st_overlap = false.
Proof.
  split; [exact st_overlap_reachable|].
  apply (reachable_invariants st_overlap st_overlap_reachable).
Defined.

(** ** Further properties: the poll cycle *)

Lemma pollFd_delivers (evs : list InotifyEvent.t) (st : Inotify) :
  Forall named_event evs ->
  pollFd (delivers evs) st = Ok (true, set_event_queue (_event_queue st ++ evs) st).
Proof.
  intros Hwf. unfold pollFd, delivers. cbn [delivered code].
  rewrite <- (app_nil_r (encode_records evs)).
  rewrite (update_queue_records evs [] st Hwf).
  simp update_queue_loop. reflexivity.
Qed.

Lemma pollFd_extends (r : sink_read) (st : Inotify) (ok : bool) (st1 : Inotify) :
  pollFd r st = Ok (ok, st1) ->
  exists new, _event_queue st1 = _event_queue st ++ new.
Proof.
  unfold pollFd. destruct (delivered r) as [data|]; cbn [bind].
  - unfold update_queue.
    rewrite <- (app_nil_r (_event_queue st)) at 1. rewrite update_queue_loop_prefix.
    destruct (update_queue_loop data []) as [[b new]|]; cbn [bind fst snd]; [|discriminate].
    intros H. exists new.
    destruct (code r); inversion H; reflexivity.
  - intros H. exists []. rewrite app_nil_r.
    destruct (code r); inversion H; reflexivity.
Qed.

(** X20: from the kernel's bytes to the handlers.  When the sink hands
    over the records of events that carry a name and reports success, a
    directed poll of [d] goes through the events of [d] among the queued
    ones followed by the new ones, in that order, raising for each the
    bindings of [d] that its mask triggers, in table order; the events of
    other descriptors, old and new, stay queued in their order. *)
Theorem poll_wd_end_to_end (evs : list InotifyEvent.t) (d : Z) (st : Inotify) :
  Forall named_event evs ->
  poll_wd (delivers evs) d st =
  Ok (true,
      set_event_queue (filter (fun e => negb (on_wd d e)) (_event_queue st ++ evs)) st,
      map (fun e => (e, filter (triggers d (InotifyEvent.mask e)) (_sigs st)))
          (filter (on_wd d) (_event_queue st ++ evs))).
Proof.
  intros Hwf. unfold poll_wd. rewrite (pollFd_delivers evs st Hwf). cbn [bind negb].
  rewrite poll_wd_loop_spec. reflexivity.
Qed.

Lemma poll_wd_end_to_end_witness :
  Forall named_event [ev_other; ev_create_delete] /\
  poll_wd (delivers [ev_other; ev_create_delete]) 5 st_overlap =
  Ok (true,
      set_event_queue
        (filter (fun e => negb (on_wd 5 e))
                (_event_queue st_overlap ++ [ev_other; ev_create_delete])) st_overlap,
      map (fun e => (e, filter (triggers 5 (InotifyEvent.mask e)) (_sigs st_overlap)))
          (filter (on_wd 5) (_event_queue st_overlap ++ [ev_other; ev_create_delete]))).
Proof.
  assert (W : Forall named_event [ev_other; ev_create_delete])
    by (constructor; [apply ev_other_named
                     | constructor; [apply ev_create_delete_named | constructor]]).
  split; [exact W|].
  apply (poll_wd_end_to_end [ev_other; ev_create_delete] 5 st_overlap W).
Defined.

(** X21: an event is dispatched once.  After a directed poll of [d], a
    second directed poll of [d] that finds nothing to read raises no
    handler and leaves the object as the first poll left it. *)
Theorem poll_wd_twice (r r2 : sink_read) (d : Z) (st st1 : Inotify) :
  pollFd r st = Ok (true, st1) ->
  quiet r2 ->
  exists st2 tr,
    poll_wd r d st = Ok (true, st2, tr) /\
    poll_wd r2 d st2 = Ok (true, st2, []).
Proof.
  intros P Q. unfold poll_wd at 1. rewrite P. cbn [bind negb].
  rewrite poll_wd_loop_spec. eexists. eexists. split; [reflexivity|].
  unfold poll_wd. rewrite (pollFd_quiet _ _ Q). cbn [bind negb].
  rewrite poll_wd_loop_spec. cbn [_event_queue _sigs set_event_queue].
  rewrite filter_filter_same.
  rewrite (filter_none (on_wd d)); [reflexivity|].
  intros e He. apply filter_In in He. destruct He as [_ He].
  destruct (on_wd d e); [discriminate | reflexivity].
Qed.

Lemma poll_wd_twice_witness :
  pollFd no_data st_overlap = Ok (true, st_overlap) /\ quiet no_data /\
  exists st2 tr,
    poll_wd no_data 5 st_overlap = Ok (true, st2, tr) /\
    poll_wd no_data 5 st2 = Ok (true, st2, []).
Proof.
  assert (Q : quiet no_data) by (split; [reflexivity | right; reflexivity]).
  split; [reflexivity|]. split; [exact Q|].
  apply (poll_wd_twice no_data no_data 5 st_overlap st_overlap eq_refl Q).
Defined.

(** X22: when the read of the sink fails, [poll(wd)] and [poll(_queue)]
    return false without dispatching or moving anything: no handler is
    raised and the caller's list is untouched; [poll()] stops at its first
    watch, returns false and polls no other watch.  What was queued is
    still queued, in front of whatever the failed read has parsed. *)
Theorem poll_failed_read (r : sink_read) (st st1 : Inotify) :
  pollFd r st = Ok (false, st1) ->
  (forall d, poll_wd r d st = Ok (false, st1, [])) /\
  (forall out, poll_queue r out st = Ok (false, st1, out)) /\
  (_watches st <> [] -> forall reads, poll (r :: reads) st = Ok (false, st1, [])) /\
  (exists new, _event_queue st1 = _event_queue st ++ new) /\
  _sigs st1 = _sigs st /\ _watches st1 = _watches st.
Proof.
  intros P.
  assert (W : forall d, poll_wd r d st = Ok (false, st1, []))
    by (intros d; unfold poll_wd; rewrite P; reflexivity).
  split; [exact W|].
  split; [intros out; unfold poll_queue; rewrite P; reflexivity|].
  split.
  { intros Hne reads. unfold poll. destruct (_watches st) as [|w ws]; [contradiction|].
    cbn [poll_loop hd tl]. rewrite W. cbn [bind]. rewrite poll_loop_failed. reflexivity. }
  split; [exact (pollFd_extends _ _ _ _ P)|].
  exact (pollFd_frame _ _ _ _ P).
Qed.

Lemma poll_failed_read_witness :
  pollFd (mk_sink_read None (OTHER 0)) st_overlap = Ok (false, st_overlap) /\
  (forall d, poll_wd (mk_sink_read None (OTHER 0)) d st_overlap
             = Ok (false, st_overlap, [])) /\
  (forall out, poll_queue (mk_sink_read None (OTHER 0)) out st_overlap
               = Ok (false, st_overlap, out)) /\
  (_watches st_overlap <> [] ->
   forall reads, poll (mk_sink_read None (OTHER 0) :: reads) st_overlap
                 = Ok (false, st_overlap, [])) /\
  (exists new, _event_queue st_overlap = _event_queue st_overlap ++ new) /\
  _sigs st_overlap = _sigs st_overlap /\ _watches st_overlap = _watches st_overlap.
Proof.
  split; [reflexivity|].
  apply (poll_failed_read (mk_sink_read None (OTHER 0)) st_overlap st_overlap).
  reflexivity.
Defined.

(** X23: [poll(_queue)] from the kernel's bytes to the caller.  When the
    sink hands over the records of events that carry a name and something
    is then queued, the caller's list becomes the events that were queued
    followed by the new ones, in their order, whatever the list held
    before; the internal queue is left empty and no handler is raised. *)
Theorem poll_queue_hands_over (evs out : list InotifyEvent.t) (st : Inotify) :
  Forall named_event evs ->
  _event_queue st ++ evs <> [] ->
  poll_queue (delivers evs) out st =
  Ok (true, set_event_queue [] st, _event_queue st ++ evs).
Proof.
  intros Hwf Hne. unfold poll_queue. rewrite (pollFd_delivers evs st Hwf).
  cbn [bind negb _event_queue set_event_queue].
  destruct (_event_queue st ++ evs) as [|e q]; [contradiction | reflexivity].
Qed.

Lemma poll_queue_hands_over_witness :
  Forall named_event [ev_other] /\
  _event_queue st_queued ++ [ev_other] <> [] /\
  poll_queue (delivers [ev_other]) [ev_create] st_queued =
  Ok (true, set_event_queue [] st_queued, _event_queue st_queued ++ [ev_other]).
Proof.
  assert (W : Forall named_event [ev_other])
    by (constructor; [apply ev_other_named | constructor]).
  assert (N : _event_queue st_queued ++ [ev_other] <> []) by discriminate.
  split; [exact W|]. split; [exact N|].
  apply (poll_queue_hands_over [ev_other] [ev_create] st_queued W N).
Defined.

Lemma flat_map_ext_in {A B : Type} (f g : A -> list B) (l : list A) :
  (forall x, In x l -> f x = g x) -> flat_map f l = flat_map g l.
Proof.
  induction l as [|a l IH]; simpl; intros H; [reflexivity|].
  rewrite (H a (or_introl eq_refl)), IH; [reflexivity|].
  intros x Hx. apply H. right. exact Hx.
Qed.

Lemma filter_on_wd_other (d d' : Z) (q : list InotifyEvent.t) :
  d <> d' ->
  filter (on_wd d') (filter (fun e => negb (on_wd d e)) q) = filter (on_wd d') q.
Proof.
  intros Hd. induction q as [|e q IH]; [reflexivity|].
  cbn [filter].
  destruct (on_wd d e) eqn:E; cbn [negb filter].
  - replace (on_wd d' e) with false; [exact IH|].
    symmetry. unfold on_wd in *. apply Z.eqb_eq in E. apply Z.eqb_neq. congruence.
  - rewrite IH. reflexivity.
Qed.

Lemma poll_loop_order (ws : watch_l) :
  forall (reads : list sink_read) (st : Inotify),
    NoDup (map Watch.wd ws) ->
    Forall quiet reads ->
    poll_loop reads ws true st =
    Ok (true,
        set_event_queue
          (filter (fun e => negb (exists_loop (InotifyEvent.wd e) ws)) (_event_queue st))
          st,
        flat_map
          (fun w =>
             map (fun e => (e, filter (triggers (Watch.wd w) (InotifyEvent.mask e))
                                      (_sigs st)))
                 (filter (on_wd (Watch.wd w)) (_event_queue st)))
          ws).
Proof.
  induction ws as [|w ws IH]; intros reads st ND Hq; cbn [poll_loop flat_map].
  - rewrite filter_all by reflexivity. destruct st; reflexivity.
  - inversion ND as [|? ? Hnotin ND']; subst.
    assert (Hh : quiet (hd no_data reads)).
    { destruct Hq; [|assumption]. split; [reflexivity | right; reflexivity]. }
    assert (Ht : Forall quiet (tl reads)) by (destruct Hq; [constructor | assumption]).
    unfold poll_wd. rewrite (pollFd_quiet _ _ Hh). cbn [bind negb].
    rewrite poll_wd_loop_spec. cbn [bind].
    rewrite (IH (tl reads) _ ND' Ht). cbn [bind _event_queue _sigs set_event_queue].
    rewrite filter_unregistered_cons. f_equal. f_equal. f_equal.
    apply flat_map_ext_in. intros w' Hw'.
    rewrite filter_on_wd_other; [reflexivity|].
    intros E. apply Hnotin. rewrite E. apply in_map. exact Hw'.
Qed.

(** X24: [poll()] dispatches by watch, not by arrival.  With pairwise
    distinct descriptors and nothing to read, [poll()] returns true and
    goes through the watches in registry order, dispatching for each watch
    all the queued events of its descriptor, in queue order, to the
    bindings their masks trigger; so an event of a later watch is
    dispatched after every event of an earlier watch, even if it was queued
    first.  The events of unregistered descriptors stay queued. *)
Theorem poll_dispatch_order (reads : list sink_read) (st : Inotify) :
  registry_ok st ->
  Forall quiet reads ->
  poll reads st =
  Ok (true,
      set_event_queue
        (filter (fun e => negb (exists_ (InotifyEvent.wd e) st)) (_event_queue st)) st,
      flat_map
        (fun w =>
           map (fun e => (e, filter (triggers (Watch.wd w) (InotifyEvent.mask e))
                                    (_sigs st)))
               (filter (on_wd (Watch.wd w)) (_event_queue st)))
        (_watches st)).
Proof.
  intros R Q. exact (poll_loop_order (_watches st) reads st R Q).
Qed.

Lemma poll_dispatch_order_witness :
  registry_ok st_two_watches /\ Forall quiet [no_data; no_data] /\
  poll [no_data; no_data] st_two_watches =
  Ok (true,
      set_event_queue
        (filter (fun e => negb (exists_ (InotifyEvent.wd e) st_two_watches))
                (_event_queue st_two_watches)) st_two_watches,
      flat_map
        (fun w =>
           map (fun e => (e, filter (triggers (Watch.wd w) (InotifyEvent.mask e))
                                    (_sigs st_two_watches)))
               (filter (on_wd (Watch.wd w)) (_event_queue st_two_watches)))
        (_watches st_two_watches)).
Proof.
  assert (R : registry_ok st_two_watches).
  { unfold registry_ok. simpl. constructor; [|constructor; [|constructor]].
    - intros [H|[]]. discriminate.
    - intros []. }
  assert (Q : Forall quiet [no_data; no_data])
    by (repeat constructor).
  split; [exact R|]. split; [exact Q|].
  apply (poll_dispatch_order [no_data; no_data] st_two_watches R Q).
Defined.

(** The event of the first watch is dispatched first although it was queued
    last. *)
Example poll_two_watches :
  poll [no_data; no_data] st_two_watches =
  Ok (true, set_event_queue [] st_two_watches,
      [(ev_create_delete, [bind_create]); (ev_other, [])]).
Proof. reflexivity. Qed.

